(** * Task manager page (src/app/page.tsx): the task-list store and its
      persistence in localStorage.

    The page keeps a list of tasks, an input buffer, a filter and an edit
    session in React state, and mirrors the list into one localStorage slot
    (key "taskManager_tasks") as JSON text.

    Layout of this file:
    - the platform the page runs on, as far as the page uses it: strings of
      UTF-16 code units with [trim], the JSON text written by [JSON.stringify]
      and read by [JSON.parse], and dates as millisecond time values with
      their ISO rendering;
    - the page itself: [Task], the component state [Home], the event handlers
      and the two effects (load on mount, save on change);
    - the properties of the page. *)

From Stdlib Require Import ZArith NArith List Bool Lia String Ascii Permutation.
From Stdlib Require Import Sorted.
Import ListNotations.

Set Warnings "-register-all".

(* ================================================================== *)
(** * Strings *)
(* ================================================================== *)

(** A JavaScript string is a sequence of UTF-16 code units. *)
Definition jsstring := list N.

(** The code units of an ASCII literal. *)
Definition lit (s : string) : jsstring :=
  map N_of_ascii (list_ascii_of_string s).

Fixpoint jsstring_eqb (a b : jsstring) : bool :=
  match a, b with
  | [], [] => true
  | x :: a', y :: b' => (x =? y)%N && jsstring_eqb a' b'
  | _, _ => false
  end.

Section Trim.
Local Open Scope N_scope.

(** WhiteSpace and LineTerminator of ECMAScript: what [String.prototype.trim]
    strips. TAB, LF, VT, FF, CR, SP, NBSP, U+1680, U+2000..U+200A, U+2028,
    U+2029, U+202F, U+205F, U+3000, U+FEFF. *)
Definition is_white_space (c : N) : bool :=
  ((9 <=? c) && (c <=? 13)) || (c =? 32) || (c =? 160) || (c =? 5760)
  || ((8192 <=? c) && (c <=? 8202)) || (c =? 8232) || (c =? 8233)
  || (c =? 8239) || (c =? 8287) || (c =? 12288) || (c =? 65279).

Fixpoint trimStart (s : jsstring) : jsstring :=
  match s with
  | [] => []
  | c :: rest => if is_white_space c then trimStart rest else s
  end.

Definition trimEnd (s : jsstring) : jsstring := rev (trimStart (rev s)).

Definition trim (s : jsstring) : jsstring := trimEnd (trimStart s).

(** [s === ""] *)
Definition is_empty (s : jsstring) : bool :=
  match s with [] => true | _ => false end.

End Trim.

(* ================================================================== *)
(** * Numbers and dates as text *)
(* ================================================================== *)

Section Decimal.
Local Open Scope N_scope.

Definition is_digit (c : N) : bool := (48 <=? c) && (c <=? 57).

(** Decimal digits of [n], most significant first; [fuel] bounds the number
    of digits ([decimal] gives enough). *)
Fixpoint digits_aux (fuel : nat) (n : N) (acc : jsstring) : jsstring :=
  match fuel with
  | O => acc
  | S f =>
      let acc' := (48 + n mod 10) :: acc in
      if n / 10 =? 0 then acc' else digits_aux f (n / 10) acc'
  end.

Definition decimal (n : N) : jsstring :=
  digits_aux (S (N.to_nat (N.log2 n))) n [].

(** Exactly [k] decimal digits: the low [k] digits of [n], zero padded. *)
Fixpoint fixed (k : nat) (n : N) : jsstring :=
  match k with
  | O => []
  | S k' => fixed k' (n / 10) ++ [48 + n mod 10]
  end.

(** The number a run of decimal digits denotes, continuing from [acc]. *)
Fixpoint digits_value (acc : N) (s : jsstring) : option N :=
  match s with
  | [] => Some acc
  | c :: rest =>
      if is_digit c then digits_value (10 * acc + (c - 48)) rest else None
  end.

End Decimal.

(** [Number::toString] of an integer below 10^21 in magnitude: the decimal
    digits, with a minus sign when negative. *)
Definition Number_toString (z : Z) : jsstring :=
  if (z <? 0)%Z then 45%N :: decimal (Z.abs_N z) else decimal (Z.abs_N z).

(** An integer every double represents exactly ([Number.isSafeInteger]). *)
Definition is_safe_integer (z : Z) : bool :=
  ((- 9007199254740991 <=? z) && (z <=? 9007199254740991))%Z.

Section Dates.
Local Open Scope Z_scope.

(** A date is its time value: milliseconds since 1970-01-01T00:00:00Z, an
    integer of magnitude at most 8.64e15 (TimeClip). *)
Definition is_time_value (t : Z) : bool :=
  (- 8640000000000000 <=? t) && (t <=? 8640000000000000).

Definition msPerDay : Z := 86400000.

Definition Day (t : Z) : Z := t / msPerDay.

Definition TimeWithinDay (t : Z) : Z := t mod msPerDay.

Definition DayFromYear (y : Z) : Z :=
  365 * (y - 1970) + (y - 1969) / 4 - (y - 1901) / 100 + (y - 1601) / 400.

Definition InLeapYear (y : Z) : bool :=
  (y mod 4 =? 0) && (negb (y mod 100 =? 0) || (y mod 400 =? 0)).

(** The year whose first day is the latest one not after day [d]: an
    estimate from the mean year length, corrected by one either way. *)
Definition YearFromDay (d : Z) : Z :=
  let y := 1970 + (400 * d) / 146097 in
  if d <? DayFromYear y then y - 1
  else if DayFromYear (y + 1) <=? d then y + 1
  else y.

(** First day of month [m] (0 = January) within its year. *)
Definition MonthStart (leap : bool) (m : Z) : Z :=
  let l := if leap then 1 else 0 in
  if m <=? 0 then 0
  else if m =? 1 then 31
  else if m =? 2 then 59 + l
  else if m =? 3 then 90 + l
  else if m =? 4 then 120 + l
  else if m =? 5 then 151 + l
  else if m =? 6 then 181 + l
  else if m =? 7 then 212 + l
  else if m =? 8 then 243 + l
  else if m =? 9 then 273 + l
  else if m =? 10 then 304 + l
  else 334 + l.

(** Month (0 = January) of day [dayInYear] of a year. *)
Definition MonthFromDay (leap : bool) (dayInYear : Z) : Z :=
  let l := if leap then 1 else 0 in
  if dayInYear <? 31 then 0
  else if dayInYear <? 59 + l then 1
  else if dayInYear <? 90 + l then 2
  else if dayInYear <? 120 + l then 3
  else if dayInYear <? 151 + l then 4
  else if dayInYear <? 181 + l then 5
  else if dayInYear <? 212 + l then 6
  else if dayInYear <? 243 + l then 7
  else if dayInYear <? 273 + l then 8
  else if dayInYear <? 304 + l then 9
  else if dayInYear <? 334 + l then 10
  else 11.

(** The calendar fields of a time value, all in UTC. *)
Record DateFields := {
  year : Z; month : Z; date : Z;
  hours : Z; minutes : Z; seconds : Z; milliseconds : Z }.

Definition fields_of_time (t : Z) : DateFields :=
  let d := Day t in
  let w := TimeWithinDay t in
  let y := YearFromDay d in
  let n := d - DayFromYear y in
  let m := MonthFromDay (InLeapYear y) n in
  {| year := y; month := m; date := n - MonthStart (InLeapYear y) m + 1;
     hours := w / 3600000; minutes := (w / 60000) mod 60;
     seconds := (w / 1000) mod 60; milliseconds := w mod 1000 |}.

(** MakeDate(MakeDay(year, month, date), MakeTime(h, m, s, ms)). *)
Definition time_of_fields (f : DateFields) : Z :=
  (DayFromYear (year f) + MonthStart (InLeapYear (year f)) (month f)
   + date f - 1) * msPerDay
  + hours f * 3600000 + minutes f * 60000 + seconds f * 1000
  + milliseconds f.

(** [Date.prototype.toISOString]: YYYY-MM-DDTHH:mm:ss.sssZ, the year with a
    sign and six digits outside 0..9999. *)
Definition iso_year (y : Z) : jsstring :=
  if (0 <=? y) && (y <=? 9999) then fixed 4 (Z.to_N y)
  else (if y <? 0 then 45%N else 43%N) :: fixed 6 (Z.abs_N y).

Definition iso_of_fields (f : DateFields) : jsstring :=
  iso_year (year f) ++ [45%N] ++ fixed 2 (Z.to_N (month f + 1))
  ++ [45%N] ++ fixed 2 (Z.to_N (date f))
  ++ [84%N] ++ fixed 2 (Z.to_N (hours f))
  ++ [58%N] ++ fixed 2 (Z.to_N (minutes f))
  ++ [58%N] ++ fixed 2 (Z.to_N (seconds f))
  ++ [46%N] ++ fixed 3 (Z.to_N (milliseconds f))
  ++ [90%N].

Definition toISOString (t : Z) : jsstring :=
  iso_of_fields (fields_of_time t).

(** Reading the same format back. The fields are read at their fixed
    positions; the string is accepted when it is the ISO rendering of the time
    value its fields give, which excludes a month 13 or a 30th of February.
    Other date formats, which engines parse each in their own way, are not
    read: [None]. *)
Definition number_at (s : jsstring) (from len : nat) : option Z :=
  option_map Z.of_N (digits_value 0%N (firstn len (skipn from s))).

Definition read_iso_fields (s : jsstring) : option DateFields :=
  let sign :=
    match s with
    | c :: _ =>
        if (c =? 45)%N then Some (-1)
        else if (c =? 43)%N then Some 1
        else None
    | [] => None
    end in
  let body := match sign with Some _ => skipn 1 s | None => s end in
  let yl := match sign with Some _ => 6%nat | None => 4%nat end in
  match number_at body 0 yl, number_at body (yl + 1) 2,
        number_at body (yl + 4) 2, number_at body (yl + 7) 2,
        number_at body (yl + 10) 2, number_at body (yl + 13) 2,
        number_at body (yl + 16) 3 with
  | Some y, Some mo, Some d, Some h, Some mi, Some sec, Some ms =>
      Some {| year := match sign with Some sg => sg * y | None => y end;
              month := mo - 1; date := d;
              hours := h; minutes := mi; seconds := sec;
              milliseconds := ms |}
  | _, _, _, _, _, _, _ => None
  end.

Definition Date_parse (s : jsstring) : option Z :=
  match read_iso_fields s with
  | Some f =>
      let t := time_of_fields f in
      if is_time_value t && jsstring_eqb (toISOString t) s then Some t
      else None
  | None => None
  end.

End Dates.

(* ================================================================== *)
(** * JSON text *)
(* ================================================================== *)

Section JSONText.
Local Open Scope N_scope.

Definition is_high_surrogate (c : N) : bool := (55296 <=? c) && (c <=? 56319).
Definition is_low_surrogate (c : N) : bool := (56320 <=? c) && (c <=? 57343).

(** One lower-case hexadecimal digit. *)
Definition hex_digit (d : N) : N := if d <? 10 then 48 + d else 87 + d.

(** UnicodeEscape: backslash, u and four hexadecimal digits. *)
Definition UnicodeEscape (c : N) : jsstring :=
  [92; 117; hex_digit ((c / 4096) mod 16); hex_digit ((c / 256) mod 16);
   hex_digit ((c / 16) mod 16); hex_digit (c mod 16)].

(** The body of QuoteJSONString: backspace, tab, line feed, form feed,
    carriage return, the double quote and the backslash get their two-letter
    escape; other control characters and surrogates that are not paired get a
    unicode escape; everything else is copied. *)
Fixpoint quote_body (s : jsstring) : jsstring :=
  match s with
  | [] => []
  | c :: rest =>
      if c =? 8 then 92 :: 98 :: quote_body rest
      else if c =? 9 then 92 :: 116 :: quote_body rest
      else if c =? 10 then 92 :: 110 :: quote_body rest
      else if c =? 12 then 92 :: 102 :: quote_body rest
      else if c =? 13 then 92 :: 114 :: quote_body rest
      else if c =? 34 then 92 :: 34 :: quote_body rest
      else if c =? 92 then 92 :: 92 :: quote_body rest
      else if c <? 32 then UnicodeEscape c ++ quote_body rest
      else if is_high_surrogate c then
        match rest with
        | d :: rest' =>
            if is_low_surrogate d then c :: d :: quote_body rest'
            else UnicodeEscape c ++ quote_body rest
        | [] => UnicodeEscape c
        end
      else if is_low_surrogate c then UnicodeEscape c ++ quote_body rest
      else c :: quote_body rest
  end.

Definition QuoteJSONString (s : jsstring) : jsstring :=
  34 :: quote_body s ++ [34].

(** ** Reading: tokens *)

Inductive token :=
| TLBrace | TRBrace | TLBracket | TRBracket | TColon | TComma
| TString (s : jsstring)
| TInt (z : Z)
| TOtherNumber
| TTrue | TFalse | TNull.

(** Where the lexer stands inside the text. Numbers follow the JSON grammar:
    an optional minus sign, then 0 or a run of digits that does not start
    with 0, then optionally a dot and digits, then optionally e or E, a sign
    and digits. A literal with a fraction or an exponent is recognised but
    its value, a double, is not computed. *)
Inductive lexmode :=
| LStart
| LWord (expect : jsstring) (tok : token)
| LStr (acc : jsstring)
| LEsc (acc : jsstring)
| LHex (acc : jsstring) (more : nat) (v : N)
| LMinus
| LZero
| LInt (neg : bool) (n : N)
| LDot
| LFrac
| LExp
| LExpSign
| LExpDigits.

Definition hex_value (c : N) : option N :=
  if is_digit c then Some (c - 48)
  else if (97 <=? c) && (c <=? 102) then Some (c - 87)
  else if (65 <=? c) && (c <=? 70) then Some (c - 55)
  else None.

Definition int_token (neg : bool) (n : N) : token :=
  TInt (if neg then (- Z.of_N n)%Z else Z.of_N n).

(** A character met between tokens. *)
Definition lex_start (c : N) : option (list token * lexmode) :=
  if (c =? 32) || (c =? 9) || (c =? 10) || (c =? 13) then Some ([], LStart)
  else if c =? 123 then Some ([TLBrace], LStart)
  else if c =? 125 then Some ([TRBrace], LStart)
  else if c =? 91 then Some ([TLBracket], LStart)
  else if c =? 93 then Some ([TRBracket], LStart)
  else if c =? 58 then Some ([TColon], LStart)
  else if c =? 44 then Some ([TComma], LStart)
  else if c =? 34 then Some ([], LStr [])
  else if c =? 45 then Some ([], LMinus)
  else if c =? 48 then Some ([], LZero)
  else if is_digit c then Some ([], LInt false (c - 48))
  else if c =? 116 then Some ([], LWord [114; 117; 101] TTrue)
  else if c =? 102 then Some ([], LWord [97; 108; 115; 101] TFalse)
  else if c =? 110 then Some ([], LWord [117; 108; 108] TNull)
  else None.

(** A number ends at the first character that cannot continue it; that
    character is then read as one met between tokens. *)
Definition lex_after (tok : token) (c : N) : option (list token * lexmode) :=
  match lex_start c with
  | Some (toks, m) => Some (tok :: toks, m)
  | None => None
  end.

Definition is_exp_mark (c : N) : bool := (c =? 101) || (c =? 69).

Definition lex_step (m : lexmode) (c : N) : option (list token * lexmode) :=
  match m with
  | LStart => lex_start c
  | LWord expect tok =>
      match expect with
      | e :: rest =>
          if c =? e then
            match rest with
            | [] => Some ([tok], LStart)
            | _ => Some ([], LWord rest tok)
            end
          else None
      | [] => None
      end
  | LStr acc =>
      if c =? 34 then Some ([TString (rev acc)], LStart)
      else if c =? 92 then Some ([], LEsc acc)
      else if c <? 32 then None
      else Some ([], LStr (c :: acc))
  | LEsc acc =>
      if c =? 34 then Some ([], LStr (34 :: acc))
      else if c =? 92 then Some ([], LStr (92 :: acc))
      else if c =? 47 then Some ([], LStr (47 :: acc))
      else if c =? 98 then Some ([], LStr (8 :: acc))
      else if c =? 102 then Some ([], LStr (12 :: acc))
      else if c =? 110 then Some ([], LStr (10 :: acc))
      else if c =? 114 then Some ([], LStr (13 :: acc))
      else if c =? 116 then Some ([], LStr (9 :: acc))
      else if c =? 117 then Some ([], LHex acc 3 0)
      else None
  | LHex acc more v =>
      match hex_value c with
      | Some d =>
          match more with
          | O => Some ([], LStr ((16 * v + d) :: acc))
          | S more' => Some ([], LHex acc more' (16 * v + d))
          end
      | None => None
      end
  | LMinus =>
      if c =? 48 then Some ([], LZero)
      else if is_digit c then Some ([], LInt true (c - 48))
      else None
  | LZero =>
      if c =? 46 then Some ([], LDot)
      else if is_exp_mark c then Some ([], LExp)
      else lex_after (TInt 0) c
  | LInt neg n =>
      if is_digit c then Some ([], LInt neg (10 * n + (c - 48)))
      else if c =? 46 then Some ([], LDot)
      else if is_exp_mark c then Some ([], LExp)
      else lex_after (int_token neg n) c
  | LDot => if is_digit c then Some ([], LFrac) else None
  | LFrac =>
      if is_digit c then Some ([], LFrac)
      else if is_exp_mark c then Some ([], LExp)
      else lex_after TOtherNumber c
  | LExp =>
      if (c =? 43) || (c =? 45) then Some ([], LExpSign)
      else if is_digit c then Some ([], LExpDigits)
      else None
  | LExpSign => if is_digit c then Some ([], LExpDigits) else None
  | LExpDigits =>
      if is_digit c then Some ([], LExpDigits)
      else lex_after TOtherNumber c
  end.

(** At the end of the text a number may be complete; anything else that is
    still open is an error. *)
Definition lex_end (m : lexmode) : option (list token) :=
  match m with
  | LStart => Some []
  | LZero => Some [TInt 0]
  | LInt neg n => Some [int_token neg n]
  | LFrac | LExpDigits => Some [TOtherNumber]
  | _ => None
  end.

Fixpoint lex (m : lexmode) (s : jsstring) : option (list token) :=
  match s with
  | [] => lex_end m
  | c :: rest =>
      match lex_step m c with
      | Some (toks, m') => option_map (app toks) (lex m' rest)
      | None => None
      end
  end.

(** ** Reading: values *)

(** A parsed JSON value. An object keeps its members as written, in order. *)
Inductive json :=
| JNull
| JBool (b : bool)
| JInt (z : Z)
| JOtherNumber
| JString (s : jsstring)
| JArray (elems : list json)
| JObject (members : list (jsstring * json)).

(** The containers that are open around the current position, innermost
    first, each with what it holds so far (latest first). *)
Inductive frame :=
| InArray (done : list json)
| InObject (done : list (jsstring * json)) (key : jsstring).

Inductive pstate :=
| PValue (stk : list frame)
| PFirstElem (stk : list frame)
| PFirstKey (stk : list frame)
| PKey (done : list (jsstring * json)) (stk : list frame)
| PColon (done : list (jsstring * json)) (key : jsstring) (stk : list frame)
| PAfterElem (done : list json) (stk : list frame)
| PAfterMember (done : list (jsstring * json)) (stk : list frame)
| PDone (v : json).

(** A value is complete: it goes into the innermost open container. *)
Definition deliver (v : json) (stk : list frame) : pstate :=
  match stk with
  | [] => PDone v
  | InArray done :: stk' => PAfterElem (v :: done) stk'
  | InObject done k :: stk' => PAfterMember ((k, v) :: done) stk'
  end.

Definition begin_value (tok : token) (stk : list frame) : option pstate :=
  match tok with
  | TLBrace => Some (PFirstKey stk)
  | TLBracket => Some (PFirstElem stk)
  | TString s => Some (deliver (JString s) stk)
  | TInt z => Some (deliver (JInt z) stk)
  | TOtherNumber => Some (deliver JOtherNumber stk)
  | TTrue => Some (deliver (JBool true) stk)
  | TFalse => Some (deliver (JBool false) stk)
  | TNull => Some (deliver JNull stk)
  | TRBrace | TRBracket | TColon | TComma => None
  end.

Definition parse_step (st : pstate) (tok : token) : option pstate :=
  match st with
  | PValue stk => begin_value tok stk
  | PFirstElem stk =>
      match tok with
      | TRBracket => Some (deliver (JArray []) stk)
      | _ => begin_value tok (InArray [] :: stk)
      end
  | PFirstKey stk =>
      match tok with
      | TRBrace => Some (deliver (JObject []) stk)
      | TString k => Some (PColon [] k stk)
      | _ => None
      end
  | PKey done stk =>
      match tok with
      | TString k => Some (PColon done k stk)
      | _ => None
      end
  | PColon done k stk =>
      match tok with
      | TColon => Some (PValue (InObject done k :: stk))
      | _ => None
      end
  | PAfterElem done stk =>
      match tok with
      | TComma => Some (PValue (InArray done :: stk))
      | TRBracket => Some (deliver (JArray (rev done)) stk)
      | _ => None
      end
  | PAfterMember done stk =>
      match tok with
      | TComma => Some (PKey done stk)
      | TRBrace => Some (deliver (JObject (rev done)) stk)
      | _ => None
      end
  | PDone _ => None
  end.

Fixpoint parse (st : pstate) (toks : list token) : option json :=
  match toks with
  | [] => match st with PDone v => Some v | _ => None end
  | tok :: rest =>
      match parse_step st tok with
      | Some st' => parse st' rest
      | None => None
      end
  end.

(** [JSON.parse]: [None] is the SyntaxError it throws. *)
Definition JSON_parse (s : jsstring) : option json :=
  match lex LStart s with
  | Some toks => parse (PValue []) toks
  | None => None
  end.

End JSONText.

(* ================================================================== *)
(** * The page: data *)
(* ================================================================== *)

(** [interface Task]. [id] is a number that [Date.now()] gave, an integer
    count of milliseconds; [createdAt] is a Date, held as its time value. *)
Record Task := {
  id : Z;
  text : jsstring;
  completed : bool;
  createdAt : Z }.

(** [type FilterType = "all" | "active" | "completed"]. *)
Inductive FilterType := All | Active | Completed.

(** The React state of [Home]: one field per [useState]. *)
Record Home := {
  tasks : list Task;
  inputValue : jsstring;
  filter : FilterType;
  editingId : option Z;
  editingText : jsstring }.

Definition initial : Home :=
  {| tasks := []; inputValue := []; filter := All;
     editingId := None; editingText := [] |}.

(** ** The persisted text *)

Section Persisted.
Local Open Scope N_scope.

Definition member (key : string) (value : jsstring) : jsstring :=
  QuoteJSONString (lit key) ++ [58] ++ value.

(** [JSON.stringify] of one task: its four own properties in the order the
    object literal of [addTask] creates them (spreading keeps that order);
    the Date is written through [toJSON], which is [toISOString]. *)
Definition stringify_Task (t : Task) : jsstring :=
  [123] ++ member "id" (Number_toString (id t))
  ++ [44] ++ member "text" (QuoteJSONString (text t))
  ++ [44] ++ member "completed" (lit (if completed t then "true" else "false"))
  ++ [44] ++ member "createdAt" (QuoteJSONString (toISOString (createdAt t)))
  ++ [125].

Fixpoint join_comma (parts : list jsstring) : jsstring :=
  match parts with
  | [] => []
  | [p] => p
  | p :: rest => p ++ [44] ++ join_comma rest
  end.

(** [JSON.stringify(tasks)]. *)
Definition JSON_stringify (ts : list Task) : jsstring :=
  [91] ++ join_comma (map stringify_Task ts) ++ [93].

(** The value [JSON.parse] gives back for one written task. *)
Definition Task_json (t : Task) : json :=
  JObject [ (lit "id", JInt (id t));
            (lit "text", JString (text t));
            (lit "completed", JBool (completed t));
            (lit "createdAt", JString (toISOString (createdAt t))) ].

End Persisted.

(** The callback of the load effect,
    [(task) => ({...task, createdAt: new Date(task.createdAt)})], on a parsed
    element of the shape the page writes: the four properties in order, an
    integer id that a double holds exactly, a date string in the format of
    [toISOString]. [None] for any other element. *)
Definition revive (j : json) : option Task :=
  match j with
  | JObject [ (k1, JInt i); (k2, JString s); (k3, JBool b);
              (k4, JString d) ] =>
      if jsstring_eqb k1 (lit "id") && jsstring_eqb k2 (lit "text")
         && jsstring_eqb k3 (lit "completed")
         && jsstring_eqb k4 (lit "createdAt") && is_safe_integer i
      then
        match Date_parse d with
        | Some t =>
            Some {| id := i; text := s; completed := b; createdAt := t |}
        | None => None
        end
      else None
  | _ => None
  end.

Fixpoint revive_all (elems : list json) : option (list Task) :=
  match elems with
  | [] => Some []
  | j :: rest =>
      match revive j, revive_all rest with
      | Some t, Some ts => Some (t :: ts)
      | _, _ => None
      end
  end.

Definition is_null (j : json) : bool :=
  match j with JNull => true | _ => false end.

Inductive js_error := SyntaxError | TypeError.

(** How the body of the [try] block ends.
    - [Returned ts]: it ran through and calls [setTasks ts];
    - [Thrown e]: it threw [e];
    - [Unmodelled]: it ran through, but an element of the parsed array is
      not of the shape [revive] reads, so that the list handed to [setTasks]
      is not a list of [Task] as this file represents them. The annotation
      [parsedTasks: Task[]] rules such values out without checking. *)
Inductive completion :=
| Returned (ts : list Task)
| Thrown (e : js_error)
| Unmodelled.

(** The body of the [try] block. [JSON.parse] throws a SyntaxError on text
    that is not JSON. [parsedTasks.map] throws a TypeError when the value is
    not an array (no other JSON value has a callable [map]), and the callback
    throws one on a null element, whose [createdAt] cannot be read. *)
Definition parseSaved (savedTasks : jsstring) : completion :=
  match JSON_parse savedTasks with
  | None => Thrown SyntaxError
  | Some (JArray elems) =>
      if existsb is_null elems then Thrown TypeError
      else match revive_all elems with
           | Some ts => Returned ts
           | None => Unmodelled
           end
  | Some _ => Thrown TypeError
  end.

(* ================================================================== *)
(** * The page: effects and handlers *)
(* ================================================================== *)

(** Calls on [localStorage] for the key "taskManager_tasks". *)
Inductive storage_call :=
| setItem (value : jsstring)
| removeItem.

(** The slot after a call, and after a sequence of calls. *)
Definition run_call (slot : option jsstring) (c : storage_call)
  : option jsstring :=
  match c with
  | setItem v => Some v
  | removeItem => None
  end.

Definition run_calls (cs : list storage_call) (slot : option jsstring)
  : option jsstring :=
  fold_left run_call cs slot.

(** The save effect, [useEffect(..., [tasks])]:
    [if (tasks.length > 0) localStorage.setItem(key, JSON.stringify(tasks))]. *)
Definition saveEffect (ts : list Task) : list storage_call :=
  if (0 <? List.length ts)%nat then [setItem (JSON_stringify ts)] else [].

(** What a handler does: the state it leaves, whether it called [setTasks]
    (a new array, so that the save effect runs after the render), and the
    calls it made on [localStorage] itself. *)
Record update := {
  next : Home;
  tasksSet : bool;
  calls : list storage_call }.

Definition setTasks (ts : list Task) (h : Home) : Home :=
  {| tasks := ts; inputValue := inputValue h; filter := filter h;
     editingId := editingId h; editingText := editingText h |}.

Definition setInputValue (s : jsstring) (h : Home) : Home :=
  {| tasks := tasks h; inputValue := s; filter := filter h;
     editingId := editingId h; editingText := editingText h |}.

Definition setFilter (f : FilterType) (h : Home) : Home :=
  {| tasks := tasks h; inputValue := inputValue h; filter := f;
     editingId := editingId h; editingText := editingText h |}.

Definition setEditingId (i : option Z) (h : Home) : Home :=
  {| tasks := tasks h; inputValue := inputValue h; filter := filter h;
     editingId := i; editingText := editingText h |}.

Definition setEditingText (s : jsstring) (h : Home) : Home :=
  {| tasks := tasks h; inputValue := inputValue h; filter := filter h;
     editingId := editingId h; editingText := s |}.

Definition unchanged (h : Home) : update :=
  {| next := h; tasksSet := false; calls := [] |}.

(** [addTask]. [now] is what [Date.now()] returns and [today] the time value
    of [new Date()]: two readings of the clock. *)
Definition addTask (now today : Z) (h : Home) : update :=
  if is_empty (trim (inputValue h)) then unchanged h
  else
    let newTask :=
      {| id := now; text := trim (inputValue h); completed := false;
         createdAt := today |} in
    {| next := setInputValue [] (setTasks (tasks h ++ [newTask]) h);
       tasksSet := true; calls := [] |}.

(** [toggleTask]. *)
Definition toggle (i : Z) (task : Task) : Task :=
  if (id task =? i)%Z
  then {| id := id task; text := text task;
          completed := negb (completed task); createdAt := createdAt task |}
  else task.

Definition toggleTask (i : Z) (h : Home) : update :=
  {| next := setTasks (map (toggle i) (tasks h)) h;
     tasksSet := true; calls := [] |}.

(** [deleteTask]: the updater removes the slot itself when no task is
    left. *)
Definition deleteTask (i : Z) (h : Home) : update :=
  let newTasks := List.filter (fun task => negb (id task =? i)%Z) (tasks h) in
  {| next := setTasks newTasks h;
     tasksSet := true;
     calls := if (List.length newTasks =? 0)%nat then [removeItem] else [] |}.

(** [clearAllTasks]. *)
Definition clearAllTasks (h : Home) : update :=
  {| next := setTasks [] h; tasksSet := true; calls := [removeItem] |}.

(** [startEditing]. *)
Definition startEditing (i : Z) (s : jsstring) (h : Home) : update :=
  {| next := setEditingText s (setEditingId (Some i) h);
     tasksSet := false; calls := [] |}.

(** [saveEdit]. *)
Definition retext (i : Z) (s : jsstring) (task : Task) : Task :=
  if (id task =? i)%Z
  then {| id := id task; text := s;
          completed := completed task; createdAt := createdAt task |}
  else task.

Definition saveEdit (i : Z) (h : Home) : update :=
  if is_empty (trim (editingText h)) then unchanged h
  else
    {| next :=
         setEditingText []
           (setEditingId None
              (setTasks (map (retext i (trim (editingText h))) (tasks h)) h));
       tasksSet := true; calls := [] |}.

(** [cancelEdit]. *)
Definition cancelEdit (h : Home) : update :=
  {| next := setEditingText [] (setEditingId None h);
     tasksSet := false; calls := [] |}.

(** [filteredTasks], [activeCount] and [completedCount], computed at each
    render. *)
Definition filteredTasks (h : Home) : list Task :=
  List.filter
    (fun task =>
       match filter h with
       | Active => negb (completed task)
       | Completed => completed task
       | All => true
       end)
    (tasks h).

Definition activeCount (h : Home) : nat :=
  List.length (List.filter (fun task => negb (completed task)) (tasks h)).

Definition completedCount (h : Home) : nat :=
  List.length (List.filter (fun task => completed task) (tasks h)).

(** ** The page in its browser *)

(** What the user and the clock do to the page. *)
Inductive event :=
| TypeInput (s : jsstring)
| Submit (now today : Z)
| Toggle (i : Z)
| Delete (i : Z)
| ClearAll
| StartEditing (i : Z) (s : jsstring)
| TypeEditing (s : jsstring)
| SaveEdit (i : Z)
| CancelEdit
| PickFilter (f : FilterType).

Definition handle (e : event) (h : Home) : update :=
  match e with
  | TypeInput s => unchanged (setInputValue s h)
  | Submit now today => addTask now today h
  | Toggle i => toggleTask i h
  | Delete i => deleteTask i h
  | ClearAll => clearAllTasks h
  | StartEditing i s => startEditing i s h
  | TypeEditing s => unchanged (setEditingText s h)
  | SaveEdit i => saveEdit i h
  | CancelEdit => cancelEdit h
  | PickFilter f => unchanged (setFilter f h)
  end.

(** All calls on [localStorage] an update leads to: those of the handler,
    then the one of the save effect if [tasks] was set. *)
Definition storage_calls (u : update) : list storage_call :=
  calls u ++ (if tasksSet u then saveEffect (tasks (next u)) else []).

(** The page, the slot of [localStorage] and what [console.error] got. *)
Record World := {
  page : Home;
  storage : option jsstring;
  console : list (jsstring * js_error) }.

Definition dispatch (e : event) (w : World) : World :=
  let u := handle e (page w) in
  {| page := next u;
     storage := run_calls (storage_calls u) (storage w);
     console := console w |}.

Definition load_message : jsstring :=
  lit "Error loading tasks from localStorage:".

(** Mounting the page over a slot: the first render shows [initial]; the
    load effect reads the slot and, if [savedTasks] is truthy (neither null
    nor the empty string), runs the [try] block; the save effect runs on the
    empty list and does nothing, and runs again after [setTasks]. [None]
    when the [try] block ends [Unmodelled]. *)
Definition mount (slot : option jsstring) : option World :=
  match slot with
  | Some (c :: s) =>
      match parseSaved (c :: s) with
      | Returned ts =>
          Some {| page := setTasks ts initial;
                  storage := run_calls (saveEffect ts) slot;
                  console := [] |}
      | Thrown e =>
          Some {| page := initial; storage := slot;
                  console := [(load_message, e)] |}
      | Unmodelled => None
      end
  | _ => Some {| page := initial; storage := slot; console := [] |}
  end.

(** ** Vocabulary of the properties *)

(** A task text as [addTask] and [saveEdit] store it: not empty, and with
    nothing for [trim] to strip. *)
Definition valid_text (s : jsstring) : Prop := s <> [] /\ trim s = s.

(** A task whose numbers are ones the platform can hold: the id a safe
    integer, the creation date a time value. *)
Definition representable (t : Task) : Prop :=
  is_safe_integer (id t) = true /\ is_time_value (createdAt t) = true.

(** The readings of the clock an event carries are time values. *)
Definition clock_ok (e : event) : Prop :=
  match e with
  | Submit now today =>
      is_time_value now = true /\ is_time_value today = true
  | _ => True
  end.

(** The tokens of the text written for one task, and for a list. *)
Definition Task_tokens (t : Task) : list token :=
  [ TLBrace; TString (lit "id"); TColon; TInt (id t); TComma;
    TString (lit "text"); TColon; TString (text t); TComma;
    TString (lit "completed"); TColon;
    (if completed t then TTrue else TFalse); TComma;
    TString (lit "createdAt"); TColon;
    TString (toISOString (createdAt t)); TRBrace ].

Definition tasks_tokens (ts : list Task) : list token :=
  match ts with
  | [] => [TLBracket; TRBracket]
  | t :: rest =>
      TLBracket :: Task_tokens t
      ++ flat_map (fun u => TComma :: Task_tokens u) rest ++ [TRBracket]
  end.

(** A task as the page itself creates them. *)
Definition sound (t : Task) : Prop :=
  valid_text (text t) /\ representable t.

(** The page holds sound tasks, and the slot is absent or holds the text of
    a list of sound tasks. *)
Definition consistent (w : World) : Prop :=
  Forall sound (tasks (page w))
  /\ (storage w = None
      \/ exists ts, storage w = Some (JSON_stringify ts) /\ Forall sound ts).

(** A string that does not start with white space. *)
Definition starts_clean (s : jsstring) : Prop :=
  match s with
  | [] => True
  | c :: _ => is_white_space c = false
  end.

(** The page of a first visit, with nothing stored. *)
Definition first_visit : World :=
  {| page := initial; storage := None; console := [] |}.

(** One task typed with spaces around it and submitted on a first visit. *)
Definition milk_world : World :=
  dispatch (Submit 1700000000000 1700000000001)
    (dispatch (TypeInput (lit " buy milk ")) first_visit).


(** A task whose text is nothing but spaces. *)
Definition blank_task : Task :=
  {| id := 1; text := lit "  "; completed := false; createdAt := 0 |}.

(** Three tasks, one of them completed. *)
Definition three_tasks : list Task :=
  [ {| id := 1700000000000; text := lit "buy milk"; completed := false;
       createdAt := 1700000000000 |};
    {| id := 1700000000777; text := lit "call Ann"; completed := true;
       createdAt := 1700000000778 |};
    {| id := 1700000123456; text := lit "read"; completed := false;
       createdAt := 1700000123456 |} ].

(** [s] keeps some of the elements of [l], in the order of [l]. *)
Inductive subsequence {A : Type} : list A -> list A -> Prop :=
| sub_nil : subsequence [] []
| sub_keep x s l : subsequence s l -> subsequence (x :: s) (x :: l)
| sub_drop x s l : subsequence s l -> subsequence s (x :: l).

(** Putting the active and the completed tasks back where they were:
    [flags] tells, position by position, from which of the two lists the
    next task comes. *)
Fixpoint merge_back (flags : list bool) (act comp : list Task) : list Task :=
  match flags with
  | [] => []
  | false :: flags' =>
      match act with
      | a :: act' => a :: merge_back flags' act' comp
      | [] => []
      end
  | true :: flags' =>
      match comp with
      | c :: comp' => c :: merge_back flags' act comp'
      | [] => []
      end
  end.

(** The worlds the page can be in when the browser starts with nothing
    stored: the page is mounted, events arrive, and the page may be reloaded
    (mounted again over what the slot then holds). *)
Inductive reachable : World -> Prop :=
| reach_first_visit w : mount None = Some w -> reachable w
| reach_event w e : reachable w -> clock_ok e -> reachable (dispatch e w)
| reach_reload w w' :
    reachable w -> mount (storage w) = Some w' -> reachable w'.

(** ** Vocabulary of the further properties *)

(** What the slot holds when it mirrors a list: nothing for the empty list,
    the text of the list otherwise. *)
Definition mirror (ts : list Task) : option jsstring :=
  match ts with
  | [] => None
  | _ :: _ => Some (JSON_stringify ts)
  end.

(** What identifies a task and never changes: its id and creation date. *)
Definition stamp (t : Task) : Z * Z := (id t, createdAt t).

(** [task.id === id], the test of the handlers. *)
Definition has_id (i : Z) (task : Task) : bool := (id task =? i)%Z.

(** The clock is ahead of the list: a submit reads a value greater than
    every id in the list. *)
Definition clock_ahead (e : event) (h : Home) : Prop :=
  match e with
  | Submit now _ => Forall (fun t => (id t < now)%Z) (tasks h)
  | _ => True
  end.

(** The worlds the page reaches from a first visit while the clock stays
    ahead of the list. *)
Inductive reachable_ticking : World -> Prop :=
| tick_first_visit w : mount None = Some w -> reachable_ticking w
| tick_event w e :
    reachable_ticking w -> clock_ok e -> clock_ahead e (page w) ->
    reachable_ticking (dispatch e w)
| tick_reload w w' :
    reachable_ticking w -> mount (storage w) = Some w' ->
    reachable_ticking w'.

(** ** What the page shows *)

(** [editingId === task.id]. *)
Definition is_editing (h : Home) (task : Task) : bool :=
  match editingId h with
  | Some i => (i =? id task)%Z
  | None => false
  end.

(** One row of the task list. A row whose task is being edited shows the
    input with the scratch text, Save and Cancel; any other row shows the
    text of the task, Edit and Delete. Both show the checkbox. Styling and
    the rendering of the creation date are not represented. *)
Inductive Row :=
| EditingRow (task : Task) (value : jsstring)
| PlainRow (task : Task).

(** The task a row is about, and whether the row is an editing row. *)
Definition row_task (r : Row) : Task :=
  match r with
  | EditingRow task _ => task
  | PlainRow task => task
  end.

Definition is_editing_row (r : Row) : bool :=
  match r with
  | EditingRow _ _ => true
  | PlainRow _ => false
  end.

Definition renderRow (h : Home) (task : Task) : Row :=
  if is_editing h task then EditingRow task (editingText h)
  else PlainRow task.

(** The filter as the template literal of the notice prints it. *)
Definition FilterType_text (f : FilterType) : jsstring :=
  match f with
  | All => lit "all"
  | Active => lit "active"
  | Completed => lit "completed"
  end.

(** The task list area: a notice when no task passes the filter, the rows
    of the filtered tasks otherwise. *)
Inductive TaskList :=
| Notice (message : jsstring)
| Rows (rows : list Row).

Definition renderTaskList (h : Home) : TaskList :=
  if (List.length (filteredTasks h) =? 0)%nat then
    Notice
      (if (List.length (tasks h) =? 0)%nat
       then lit "No tasks yet. Add one above to get started!"
       else lit "No " ++ FilterType_text (filter h) ++ lit " tasks found.")
  else Rows (map (renderRow h) (filteredTasks h)).

(** [tasks.length > 0 && <button onClick={clearAllTasks}>]. *)
Definition clearAllShown (h : Home) : bool :=
  (0 <? List.length (tasks h))%nat.

(** The handler calls a row is wired to: the checkbox to [toggleTask]; in an
    editing row the input to [setEditingText], Save and the Enter key to
    [saveEdit], Cancel and the Escape key to [cancelEdit]; in a plain row
    Edit to [startEditing] with the text of the task, Delete to
    [deleteTask]. *)
Definition row_offers (r : Row) (e : event) : Prop :=
  match r, e with
  | EditingRow t _, Toggle i => i = id t
  | EditingRow t _, SaveEdit i => i = id t
  | EditingRow _ _, CancelEdit => True
  | EditingRow _ _, TypeEditing _ => True
  | PlainRow t, Toggle i => i = id t
  | PlainRow t, StartEditing i s => i = id t /\ s = text t
  | PlainRow t, Delete i => i = id t
  | _, _ => False
  end.

(** The events the page as rendered lets the user raise. The form and the
    filter buttons are always there. *)
Definition offers (h : Home) (e : event) : Prop :=
  match e with
  | TypeInput _ | Submit _ _ | PickFilter _ => True
  | ClearAll => clearAllShown h = true
  | _ =>
      match renderTaskList h with
      | Rows rows => exists r, In r rows /\ row_offers r e
      | Notice _ => False
      end
  end.

(** Two tasks added one after the other on a first visit, the first one
    then completed. *)
Definition two_task_world : World :=
  dispatch (Toggle 1700000000000)
    (dispatch (Submit 1700000000500 1700000000501)
       (dispatch (TypeInput (lit "call Ann")) milk_world)).

(* ================================================================== *)
(** * Properties of the platform text *)
(* ================================================================== *)

(** ** Calendar arithmetic *)

Section DateFacts.
Local Open Scope Z_scope.

(** [YearFromDay] is YearFromTime of ECMAScript: the year in which the day
    falls. *)
Lemma YearFromDay_spec d :
  DayFromYear (YearFromDay d) <= d < DayFromYear (YearFromDay d + 1).
Proof.
  unfold YearFromDay.
  set (y := 1970 + 400 * d / 146097).
  assert (Hy : 146097 * (y - 1970) <= 400 * d < 146097 * (y - 1970) + 146097).
  { unfold y. Z.div_mod_to_equations. lia. }
  clearbody y.
  destruct (Z.ltb_spec d (DayFromYear y)) as [H1|H1].
  - revert H1. unfold DayFromYear. replace (y - 1 + 1) with y by lia.
    Z.div_mod_to_equations. lia.
  - destruct (Z.leb_spec (DayFromYear (y + 1)) d) as [H2|H2].
    + revert H1 H2. unfold DayFromYear. Z.div_mod_to_equations. lia.
    + lia.
Qed.

(** A year has 365 days, or 366 when it is a leap year. *)
Lemma year_length y :
  DayFromYear (y + 1) - DayFromYear y = if InLeapYear y then 366 else 365.
Proof.
  unfold DayFromYear, InLeapYear.
  replace (y + 1 - 1970) with (y - 1969) by lia.
  replace (y + 1 - 1969) with (y - 1968) by lia.
  replace (y + 1 - 1901) with (y - 1900) by lia.
  replace (y + 1 - 1601) with (y - 1600) by lia.
  assert (H4 : (y - 1968) / 4 - (y - 1969) / 4 = if y mod 4 =? 0 then 1 else 0).
  { destruct (Z.eqb_spec (y mod 4) 0) as [H|H]; revert H;
      Z.div_mod_to_equations; lia. }
  assert (H100 : (y - 1900) / 100 - (y - 1901) / 100
                 = if y mod 100 =? 0 then 1 else 0).
  { destruct (Z.eqb_spec (y mod 100) 0) as [H|H]; revert H;
      Z.div_mod_to_equations; lia. }
  assert (H400 : (y - 1600) / 400 - (y - 1601) / 400
                 = if y mod 400 =? 0 then 1 else 0).
  { destruct (Z.eqb_spec (y mod 400) 0) as [H|H]; revert H;
      Z.div_mod_to_equations; lia. }
  assert (Ha : y mod 100 = 0 -> y mod 4 = 0).
  { Z.div_mod_to_equations; lia. }
  assert (Hb : y mod 400 = 0 -> y mod 100 = 0).
  { Z.div_mod_to_equations; lia. }
  destruct (Z.eqb_spec (y mod 4) 0); destruct (Z.eqb_spec (y mod 100) 0);
    destruct (Z.eqb_spec (y mod 400) 0); cbn [andb orb negb]; lia.
Qed.

(** The fields of a time value give the time value back. *)
Lemma time_of_fields_of_time t : time_of_fields (fields_of_time t) = t.
Proof.
  unfold time_of_fields, fields_of_time, Day, TimeWithinDay, msPerDay. simpl.
  Z.div_mod_to_equations. lia.
Qed.

(** Month and day of the month of a day of the year. *)
Lemma month_date_range (leap : bool) (n : Z) :
  0 <= n < (if leap then 366 else 365) ->
  0 <= MonthFromDay leap n <= 11
  /\ 1 <= n - MonthStart leap (MonthFromDay leap n) + 1 <= 31.
Proof.
  intros H. unfold MonthFromDay, MonthStart.
  destruct leap;
  repeat match goal with
  | |- context [?a <? ?b] => destruct (Z.ltb_spec a b)
  end; simpl; lia.
Qed.

(** The fields of a time value are those of a calendar date and a time of
    day, the year within the range a Date covers. *)
Lemma fields_range t :
  is_time_value t = true ->
  let f := fields_of_time t in
  -271821 <= year f <= 275760
  /\ 0 <= month f <= 11 /\ 1 <= date f <= 31
  /\ 0 <= hours f <= 23 /\ 0 <= minutes f <= 59 /\ 0 <= seconds f <= 59
  /\ 0 <= milliseconds f <= 999.
Proof.
  unfold is_time_value. intros H. apply andb_true_iff in H.
  destruct H as [Hlo Hhi]. apply Z.leb_le in Hlo. apply Z.leb_le in Hhi.
  unfold fields_of_time. simpl.
  pose proof (YearFromDay_spec (Day t)) as Hy.
  pose proof (year_length (YearFromDay (Day t))) as Hl.
  assert (Hd : -100000000 <= Day t <= 100000000).
  { unfold Day, msPerDay. Z.div_mod_to_equations. lia. }
  split.
  - revert Hy. generalize (YearFromDay (Day t)). intros y. unfold DayFromYear.
    Z.div_mod_to_equations. lia.
  - destruct (month_date_range (InLeapYear (YearFromDay (Day t)))
               (Day t - DayFromYear (YearFromDay (Day t)))) as [Hm Hdt].
    { destruct (InLeapYear (YearFromDay (Day t))); lia. }
    split; [exact Hm|]. split; [exact Hdt|].
    unfold TimeWithinDay, msPerDay. Z.div_mod_to_equations. lia.
Qed.

End DateFacts.

(** ** Decimal digits *)

Section DigitFacts.
Local Open Scope N_scope.

Lemma is_digit_spec c : is_digit c = true <-> 48 <= c <= 57.
Proof.
  unfold is_digit. rewrite andb_true_iff, !N.leb_le. tauto.
Qed.

Lemma digits_value_digit a d r :
  d < 10 -> digits_value a ((48 + d) :: r) = digits_value (10 * a + d) r.
Proof.
  intros H. cbn [digits_value].
  replace (is_digit (48 + d)) with true
    by (symmetry; apply is_digit_spec; lia).
  now replace (48 + d - 48) with d by lia.
Qed.

Lemma digits_value_app a x y :
  digits_value a (x ++ y)
  = match digits_value a x with
    | Some v => digits_value v y
    | None => None
    end.
Proof.
  revert a. induction x as [|c x IH]; intros a; simpl; [reflexivity|].
  destruct (is_digit c); [apply IH | reflexivity].
Qed.

(** Reading [k] written digits gives the number, modulo 10^k. *)
Lemma digits_value_fixed k n a :
  digits_value a (fixed k n) = Some (a * 10 ^ N.of_nat k + n mod 10 ^ N.of_nat k).
Proof.
  revert n a. induction k as [|k IH]; intros n a.
  - simpl. rewrite N.mod_1_r. f_equal. lia.
  - cbn [fixed]. rewrite digits_value_app, IH.
    rewrite digits_value_digit by (apply N.mod_lt; discriminate).
    cbn [digits_value]. f_equal. rewrite Nat2N.inj_succ, N.pow_succ_r'.
    rewrite (N.Div0.mod_mul_r n 10 (10 ^ N.of_nat k)). ring.
Qed.

Lemma length_fixed k n : List.length (fixed k n) = k.
Proof.
  revert n. induction k as [|k IH]; intros n; simpl; [reflexivity|].
  rewrite length_app, IH. simpl. lia.
Qed.

Lemma fixed_head k n :
  exists d r, fixed (S k) n = (48 + d) :: r /\ d < 10.
Proof.
  revert n. induction k as [|k IH]; intros n.
  - exists (n mod 10), []. split; [reflexivity|]. now apply N.mod_lt.
  - destruct (IH (n / 10)) as [d [r [E Hd]]].
    exists d, (r ++ [48 + n mod 10]). split; [|exact Hd].
    change (fixed (S (S k)) n) with (fixed (S k) (n / 10) ++ [48 + n mod 10]).
    now rewrite E.
Qed.

Lemma jsstring_eqb_refl s : jsstring_eqb s s = true.
Proof. induction s as [|c s IH]; simpl; [reflexivity|]. now rewrite N.eqb_refl. Qed.

Lemma option_map_app_nil {A : Type} (o : option (list A)) :
  option_map (app []) o = o.
Proof. now destruct o. Qed.

Lemma small_quotient (n : N) : n / 10 = 0 -> n < 10.
Proof.
  intros E. destruct (N.lt_ge_cases n 10) as [H|H]; [exact H|].
  exfalso. apply (N.Div0.div_le_mono _ _ 10) in H.
  rewrite N.div_same in H by discriminate. lia.
Qed.

(** With fuel for its digits, [digits_aux] writes [n]: at least one digit,
    no leading zero unless [n] is zero, and the digits denote [n]. *)
Lemma digits_aux_spec (f : nat) (n : N) (acc : jsstring) :
  n < 2 ^ N.of_nat (S f) ->
  exists d ds,
    digits_aux (S f) n acc = (48 + d) :: ds ++ acc /\ d < 10
    /\ (n <> 0 -> d <> 0) /\ (n = 0 -> ds = [])
    /\ digits_value d ds = Some n.
Proof.
  revert n acc. induction f as [|f IH]; intros n acc Hn;
    cbn [digits_aux]; destruct (N.eqb_spec (n / 10) 0) as [E|E].
  - exists n, []. pose proof (small_quotient n E).
    rewrite N.mod_small by assumption. repeat split; auto.
  - exfalso. apply E. apply N.div_small. simpl in Hn. lia.
  - exists n, []. pose proof (small_quotient n E).
    rewrite N.mod_small by assumption. repeat split; auto.
  - assert (Hlt : n / 10 < 2 ^ N.of_nat (S f)).
    { rewrite (Nat2N.inj_succ (S f)), N.pow_succ_r' in Hn.
      apply N.Div0.div_lt_upper_bound. lia. }
    destruct (IH (n / 10) ((48 + n mod 10) :: acc) Hlt)
      as (d & ds & Hd & Hd10 & Hnz & _ & Hv).
    exists d, (ds ++ [48 + n mod 10]). repeat split.
    + cbn [digits_aux] in Hd. rewrite Hd. now rewrite <- app_assoc.
    + exact Hd10.
    + intros _. now apply Hnz.
    + intros ->. now destruct E.
    + rewrite digits_value_app, Hv.
      rewrite digits_value_digit by (apply N.mod_lt; discriminate).
      cbn [digits_value]. f_equal.
      rewrite (N.Div0.div_mod n 10) at 3. lia.
Qed.

(** [decimal] has the fuel it needs. *)
Lemma decimal_spec (n : N) :
  exists d ds,
    decimal n = (48 + d) :: ds /\ d < 10
    /\ (n <> 0 -> d <> 0) /\ (n = 0 -> ds = [])
    /\ digits_value d ds = Some n.
Proof.
  unfold decimal.
  destruct (digits_aux_spec (N.to_nat (N.log2 n)) n [])
    as (d & ds & H); [|exists d, ds; now rewrite app_nil_r in H].
  rewrite Nat2N.inj_succ, N2Nat.id.
  destruct (N.eq_dec n 0) as [->|Hn]; [reflexivity|].
  apply N.log2_spec. lia.
Qed.

End DigitFacts.

(** ** Reading an ISO date back *)

Section IsoFacts.
Local Open Scope Z_scope.

(** Reading a number at the place where its digits stand. *)
Lemma number_at_app (pre mid post : jsstring) (from len : nat) :
  List.length pre = from -> List.length mid = len ->
  number_at (pre ++ mid ++ post) from len
  = option_map Z.of_N (digits_value 0%N mid).
Proof.
  intros <- <-. unfold number_at.
  rewrite skipn_app, skipn_all, Nat.sub_diag. simpl.
  rewrite firstn_app, firstn_all, Nat.sub_diag. simpl.
  now rewrite app_nil_r.
Qed.

Lemma number_at_fixed (pre post : jsstring) (from k : nat) (z : Z) :
  List.length pre = from -> (0 <= z < 10 ^ Z.of_nat k)%Z ->
  number_at (pre ++ fixed k (Z.to_N z) ++ post) from k = Some z.
Proof.
  intros Hf Hz. rewrite number_at_app by (auto using length_fixed).
  rewrite digits_value_fixed. simpl. f_equal.
  rewrite N.mod_small.
  - lia.
  - apply N2Z.inj_lt. rewrite N2Z.inj_pow, Z2N.id by lia. simpl.
    now rewrite nat_N_Z.
Qed.

Lemma number_at_cons (c : N) (B : jsstring) (from len : nat) :
  number_at (c :: B) (S from) len = number_at B from len.
Proof. reflexivity. Qed.

Lemma number_at_skip (x B : jsstring) (from len : nat) :
  number_at (x ++ B) (List.length x + from) len = number_at B from len.
Proof.
  unfold number_at. rewrite skipn_app.
  rewrite (skipn_all2 x) by lia. simpl.
  now replace (List.length x + from - List.length x)%nat with from by lia.
Qed.

Lemma number_at_skip_fixed (k : nat) (n : N) (B : jsstring) (from len : nat) :
  (k <=? from)%nat = true ->
  number_at (fixed k n ++ B) from len = number_at B (from - k) len.
Proof.
  intros H. apply Nat.leb_le in H.
  replace from with (List.length (fixed k n) + (from - k))%nat at 1
    by (rewrite length_fixed; lia).
  apply number_at_skip.
Qed.

Lemma number_at_fixed_here (k : nat) (z : Z) (post : jsstring) :
  0 <= z < 10 ^ Z.of_nat k ->
  number_at (fixed k (Z.to_N z) ++ post) 0 k = Some z.
Proof. intros H. now apply (number_at_fixed [] post 0 k z). Qed.

(** The six numbers after the year, read at their places. *)
Lemma read_numbers (Y : jsstring) (mo d h mi s ms : Z) :
  0 <= mo <= 99 -> 0 <= d <= 99 -> 0 <= h <= 99 -> 0 <= mi <= 99 ->
  0 <= s <= 99 -> 0 <= ms <= 999 ->
  let yl := List.length Y in
  let B := Y ++ [45%N] ++ fixed 2 (Z.to_N mo)
           ++ [45%N] ++ fixed 2 (Z.to_N d)
           ++ [84%N] ++ fixed 2 (Z.to_N h)
           ++ [58%N] ++ fixed 2 (Z.to_N mi)
           ++ [58%N] ++ fixed 2 (Z.to_N s)
           ++ [46%N] ++ fixed 3 (Z.to_N ms)
           ++ [90%N] in
  number_at B (yl + 1) 2 = Some mo /\ number_at B (yl + 4) 2 = Some d
  /\ number_at B (yl + 7) 2 = Some h /\ number_at B (yl + 10) 2 = Some mi
  /\ number_at B (yl + 13) 2 = Some s /\ number_at B (yl + 16) 3 = Some ms.
Proof.
  intros Hmo Hd Hh Hmi Hs Hms yl B. subst yl B.
  cbn [app]. rewrite !number_at_skip. rewrite !number_at_cons.
  split; [apply number_at_fixed_here; simpl; lia|].
  rewrite !(number_at_skip_fixed 2) by reflexivity. cbn [Nat.sub].
  rewrite !number_at_cons.
  split; [apply number_at_fixed_here; simpl; lia|].
  rewrite !(number_at_skip_fixed 2) by reflexivity. cbn [Nat.sub].
  rewrite !number_at_cons.
  split; [apply number_at_fixed_here; simpl; lia|].
  rewrite !(number_at_skip_fixed 2) by reflexivity. cbn [Nat.sub].
  rewrite !number_at_cons.
  split; [apply number_at_fixed_here; simpl; lia|].
  rewrite !(number_at_skip_fixed 2) by reflexivity. cbn [Nat.sub].
  rewrite !number_at_cons.
  split; [apply number_at_fixed_here; simpl; lia|].
  rewrite !(number_at_skip_fixed 2) by reflexivity. cbn [Nat.sub].
  rewrite !number_at_cons.
  apply number_at_fixed_here; simpl; lia.
Qed.

(** The fields written by [iso_of_fields] are read back. *)
Lemma read_iso_of_fields (f : DateFields) :
  -999999 <= year f <= 999999 ->
  0 <= month f <= 11 -> 0 <= date f <= 99 -> 0 <= hours f <= 99 ->
  0 <= minutes f <= 99 -> 0 <= seconds f <= 99 ->
  0 <= milliseconds f <= 999 ->
  read_iso_fields (iso_of_fields f) = Some f.
Proof.
  destruct f as [y mo d h mi s ms]. cbn [year month date hours minutes seconds milliseconds].
  intros Hy Hmo Hd Hh Hmi Hs Hms.
  unfold iso_of_fields, iso_year.
  cbn [year month date hours minutes seconds milliseconds].
  destruct ((0 <=? y) && (y <=? 9999)) eqn:Ey.
  - apply andb_true_iff in Ey. destruct Ey as [Ey1 Ey2].
    apply Z.leb_le in Ey1. apply Z.leb_le in Ey2.
    destruct (read_numbers (fixed 4 (Z.to_N y)) (mo + 1) d h mi s ms)
      as (R1 & R2 & R3 & R4 & R5 & R6); try lia.
    cbv zeta in R1, R2, R3, R4, R5, R6. rewrite length_fixed in *.
    unfold read_iso_fields.
    destruct (fixed_head 3 (Z.to_N y)) as [c [r [E Hc]]].
    assert (Hsign :
      match fixed 4 (Z.to_N y) ++ [45%N] ++ fixed 2 (Z.to_N (mo + 1))
            ++ [45%N] ++ fixed 2 (Z.to_N d) ++ [84%N] ++ fixed 2 (Z.to_N h)
            ++ [58%N] ++ fixed 2 (Z.to_N mi) ++ [58%N] ++ fixed 2 (Z.to_N s)
            ++ [46%N] ++ fixed 3 (Z.to_N ms) ++ [90%N] with
      | c :: _ => if (c =? 45)%N then Some (-1) else if (c =? 43)%N then Some 1 else None
      | [] => None
      end = None).
    { rewrite E. cbn [app].
      destruct (N.eqb_spec (48 + c) 45); [lia|].
      destruct (N.eqb_spec (48 + c) 43); [lia|]. reflexivity. }
    rewrite Hsign. cbn iota.
    rewrite R1, R2, R3, R4, R5, R6.
    rewrite number_at_fixed_here by (simpl; lia).
    do 2 f_equal. lia.
  - assert (Hy' : y < 0 \/ 9999 < y).
    { apply andb_false_iff in Ey. destruct Ey as [Ey|Ey];
        [apply Z.leb_gt in Ey | apply Z.leb_gt in Ey]; lia. }
    destruct (read_numbers (fixed 6 (Z.abs_N y)) (mo + 1) d h mi s ms)
      as (R1 & R2 & R3 & R4 & R5 & R6); try lia.
    cbv zeta in R1, R2, R3, R4, R5, R6. rewrite length_fixed in *.
    unfold read_iso_fields. rewrite <- app_comm_cons.
    destruct (Z.ltb_spec y 0) as [Hneg|Hpos].
    + cbn [N.eqb Pos.eqb skipn]. rewrite R1, R2, R3, R4, R5, R6.
      replace (Z.abs_N y) with (Z.to_N (- y)) by lia.
      rewrite number_at_fixed_here by (simpl; lia).
      do 2 f_equal; lia.
    + cbn [N.eqb Pos.eqb skipn]. rewrite R1, R2, R3, R4, R5, R6.
      replace (Z.abs_N y) with (Z.to_N y) by lia.
      rewrite number_at_fixed_here by (simpl; lia).
      do 2 f_equal; lia.
Qed.

(** [Date.parse(d.toISOString())] is the time value of [d]. *)
Lemma Date_parse_toISOString (t : Z) :
  is_time_value t = true -> Date_parse (toISOString t) = Some t.
Proof.
  intros Ht. unfold Date_parse, toISOString.
  pose proof (fields_range t Ht) as H. cbv zeta in H.
  destruct H as (Hy & Hmo & Hd & Hh & Hmi & Hs & Hms).
  rewrite read_iso_of_fields by lia.
  rewrite time_of_fields_of_time, Ht, jsstring_eqb_refl. reflexivity.
Qed.

End IsoFacts.

(** ** Lexing what the page writes *)

Section LexFacts.
Local Open Scope N_scope.

Ltac decide_tests :=
  repeat match goal with
  | |- context [N.eqb ?a ?b] => destruct (N.eqb_spec a b); [lia|]
  | |- context [N.ltb ?a ?b] => destruct (N.ltb_spec a b); [lia|]
  | |- context [N.leb ?a ?b] => destruct (N.leb_spec a b); [|lia]
  end.

(** One step of the lexer. *)
Lemma lex_cons (m : lexmode) (c : N) (rest : jsstring) toks m' :
  lex_step m c = Some (toks, m') ->
  lex m (c :: rest) = option_map (app toks) (lex m' rest).
Proof. intros H. cbn [lex]. now rewrite H. Qed.

Lemma lex_quiet (m : lexmode) (c : N) (rest : jsstring) m' :
  lex_step m c = Some ([], m') -> lex m (c :: rest) = lex m' rest.
Proof. intros H. rewrite (lex_cons _ _ _ _ _ H). apply option_map_app_nil. Qed.

(** Lexing a run of digits inside an integer. *)
Lemma lex_digits (neg : bool) (ds : jsstring) (a v : N) (rest : jsstring) :
  digits_value a ds = Some v ->
  lex (LInt neg a) (ds ++ rest) = lex (LInt neg v) rest.
Proof.
  revert a. induction ds as [|c ds IH]; intros a H; simpl in H.
  - now injection H as ->.
  - destruct (is_digit c) eqn:E; [|discriminate].
    cbn [app]. rewrite (lex_quiet _ _ _ (LInt neg (10 * a + (c - 48)))).
    + now apply IH.
    + cbn [lex_step]. now rewrite E.
Qed.

Lemma lex_start_digit (d : N) :
  0 < d < 10 -> lex_start (48 + d) = Some ([], LInt false d).
Proof.
  intros H. unfold lex_start, is_digit. decide_tests.
  cbn [orb andb].
  destruct (N.leb_spec 48 (48 + d)); [|lia].
  destruct (N.leb_spec (48 + d) 57); [|lia]. cbn [andb].
  now replace (48 + d - 48) with d by lia.
Qed.

(** A number followed by a comma. *)
Lemma lex_decimal_comma (neg : bool) (n : N) (rest : jsstring) :
  n <> 0 ->
  lex (if neg then LMinus else LStart) (decimal n ++ 44 :: rest)
  = option_map (app [int_token neg n; TComma]) (lex LStart rest).
Proof.
  intros Hn. destruct (decimal_spec n) as (d & ds & E & Hd & Hnz & _ & Hv).
  rewrite E. specialize (Hnz Hn). cbn [app].
  assert (Hstep : lex_step (if neg then LMinus else LStart) (48 + d)
                  = Some ([], LInt neg d)).
  { destruct neg.
    - cbn [lex_step]. unfold is_digit.
      destruct (N.eqb_spec (48 + d) 48); [lia|].
      destruct (N.leb_spec 48 (48 + d)); [|lia].
      destruct (N.leb_spec (48 + d) 57); [|lia]. cbn [andb].
      now replace (48 + d - 48) with d by lia.
    - apply lex_start_digit. lia. }
  rewrite (lex_quiet _ _ _ _ Hstep).
  rewrite (lex_digits neg ds d n _ Hv).
  now rewrite (lex_cons _ _ _ [int_token neg n; TComma] LStart).
Qed.

(** An integer as [Number_toString] writes it, followed by a comma, is lexed
    as that integer and the comma. *)
Lemma lex_Number_comma (z : Z) (rest : jsstring) :
  lex LStart (Number_toString z ++ 44 :: rest)
  = option_map (app [TInt z; TComma]) (lex LStart rest).
Proof.
  unfold Number_toString. destruct (Z.ltb_spec z 0) as [H|H].
  - cbn [app]. rewrite (lex_quiet _ _ _ LMinus) by reflexivity.
    rewrite (lex_decimal_comma true) by lia.
    unfold int_token. now replace (- Z.of_N (Z.abs_N z))%Z with z by lia.
  - destruct (Z.eq_dec z 0) as [->|Hz].
    + change (decimal (Z.abs_N 0)) with [48]. cbn [app].
      rewrite (lex_quiet _ _ _ LZero) by reflexivity.
      now rewrite (lex_cons _ _ _ [TInt 0; TComma] LStart).
    + rewrite (lex_decimal_comma false) by lia.
      unfold int_token. now replace (Z.of_N (Z.abs_N z)) with z by lia.
Qed.

Lemma hex_value_hex_digit (d : N) : d < 16 -> hex_value (hex_digit d) = Some d.
Proof.
  intros H. unfold hex_value, hex_digit, is_digit.
  destruct (N.ltb_spec d 10).
  - destruct (N.leb_spec 48 (48 + d)); [|lia].
    destruct (N.leb_spec (48 + d) 57); [|lia]. cbn [andb].
    f_equal. lia.
  - destruct (N.leb_spec (87 + d) 57); [lia|]. rewrite andb_false_r.
    destruct (N.leb_spec 97 (87 + d)); [|lia].
    destruct (N.leb_spec (87 + d) 102); [|lia]. cbn [andb].
    f_equal. lia.
Qed.

Lemma hex_step (acc : jsstring) (more : nat) (v d : N) :
  d < 16 ->
  lex_step (LHex acc more v) (hex_digit d)
  = Some ([], match more with
              | O => LStr ((16 * v + d) :: acc)
              | S more' => LHex acc more' (16 * v + d)
              end).
Proof.
  intros H. cbn [lex_step]. rewrite hex_value_hex_digit by exact H.
  now destruct more.
Qed.

(** Four hexadecimal digits of a code unit give it back. *)
Lemma hex_digits_value (c : N) :
  c < 65536 ->
  16 * (16 * (16 * (16 * 0 + (c / 4096) mod 16) + (c / 256) mod 16)
        + (c / 16) mod 16) + c mod 16 = c.
Proof.
  intros H.
  replace (c / 4096) with (c / 16 / 16 / 16)
    by (now rewrite !N.Div0.div_div).
  replace (c / 256) with (c / 16 / 16) by (now rewrite !N.Div0.div_div).
  pose proof (N.Div0.div_mod c 16) as E1.
  pose proof (N.Div0.div_mod (c / 16) 16) as E2.
  pose proof (N.Div0.div_mod (c / 16 / 16) 16) as E3.
  assert (E4 : c / 16 / 16 / 16 < 16).
  { rewrite !N.Div0.div_div. apply N.Div0.div_lt_upper_bound. simpl. lia. }
  rewrite (N.mod_small _ _ E4).
  revert E1 E2 E3.
  generalize (c mod 16) ((c / 16) mod 16) ((c / 16 / 16) mod 16)
             (c / 16 / 16 / 16) (c / 16 / 16) (c / 16).
  intros. lia.
Qed.

(** A unicode escape inside a string is lexed as the code unit. *)
Lemma lex_UnicodeEscape (acc : jsstring) (c : N) (rest : jsstring) :
  c < 65536 ->
  lex (LStr acc) (UnicodeEscape c ++ rest) = lex (LStr (c :: acc)) rest.
Proof.
  intros H. unfold UnicodeEscape. cbn [app].
  rewrite (lex_quiet _ _ _ (LEsc acc)) by reflexivity.
  rewrite (lex_quiet _ _ _ (LHex acc 3 0)) by reflexivity.
  rewrite (lex_quiet _ _ _ _ (hex_step acc 3 _ _ (N.mod_lt _ 16 ltac:(discriminate)))).
  rewrite (lex_quiet _ _ _ _ (hex_step acc 2 _ _ (N.mod_lt _ 16 ltac:(discriminate)))).
  rewrite (lex_quiet _ _ _ _ (hex_step acc 1 _ _ (N.mod_lt _ 16 ltac:(discriminate)))).
  rewrite (lex_quiet _ _ _ _ (hex_step acc 0 _ _ (N.mod_lt _ 16 ltac:(discriminate)))).
  now rewrite hex_digits_value.
Qed.

Lemma lex_escape (acc : jsstring) (e c : N) (rest : jsstring) :
  lex_step (LEsc acc) e = Some ([], LStr (c :: acc)) ->
  lex (LStr acc) (92 :: e :: rest) = lex (LStr (c :: acc)) rest.
Proof.
  intros H. rewrite (lex_quiet _ _ _ (LEsc acc)) by reflexivity.
  now rewrite (lex_quiet _ _ _ _ H).
Qed.

Lemma lex_plain (acc : jsstring) (c : N) (rest : jsstring) :
  32 <= c -> c <> 34 -> c <> 92 ->
  lex (LStr acc) (c :: rest) = lex (LStr (c :: acc)) rest.
Proof.
  intros H1 H2 H3. apply lex_quiet. cbn [lex_step]. now decide_tests.
Qed.

Lemma surrogate_range (c : N) :
  is_high_surrogate c = true \/ is_low_surrogate c = true ->
  32 <= c /\ c <> 34 /\ c <> 92 /\ c < 65536.
Proof.
  unfold is_high_surrogate, is_low_surrogate.
  rewrite !andb_true_iff, !N.leb_le. lia.
Qed.

(** The body of a quoted string and the closing quote are lexed as the
    string; by induction on a bound of the length, since a surrogate pair
    takes two code units at once. *)
Lemma lex_quote_body (n : nat) :
  forall (s acc rest : jsstring), (List.length s <= n)%nat ->
  lex (LStr acc) (quote_body s ++ 34 :: rest)
  = option_map (cons (TString (rev acc ++ s))) (lex LStart rest).
Proof.
  induction n as [|n IH]; intros s acc rest Hlen.
  - destruct s; [|simpl in Hlen; lia]. cbn [quote_body app].
    rewrite (lex_cons _ _ _ [TString (rev acc)] LStart) by reflexivity.
    now rewrite app_nil_r.
  - destruct s as [|c s].
    { cbn [quote_body app].
      rewrite (lex_cons _ _ _ [TString (rev acc)] LStart) by reflexivity.
      now rewrite app_nil_r. }
    simpl in Hlen.
    assert (Hnext : forall s', (List.length s' <= n)%nat ->
              lex (LStr (c :: acc)) (quote_body s' ++ 34 :: rest)
              = option_map (cons (TString (rev acc ++ c :: s'))) (lex LStart rest)).
    { intros s' Hs'. rewrite IH by exact Hs'. cbn [rev].
      now rewrite <- app_assoc. }
    cbn [quote_body].
    destruct (N.eqb_spec c 8) as [->|H8].
    { cbn [app]. rewrite (lex_escape _ _ 8) by reflexivity. apply Hnext. lia. }
    destruct (N.eqb_spec c 9) as [->|H9].
    { cbn [app]. rewrite (lex_escape _ _ 9) by reflexivity. apply Hnext. lia. }
    destruct (N.eqb_spec c 10) as [->|H10].
    { cbn [app]. rewrite (lex_escape _ _ 10) by reflexivity. apply Hnext. lia. }
    destruct (N.eqb_spec c 12) as [->|H12].
    { cbn [app]. rewrite (lex_escape _ _ 12) by reflexivity. apply Hnext. lia. }
    destruct (N.eqb_spec c 13) as [->|H13].
    { cbn [app]. rewrite (lex_escape _ _ 13) by reflexivity. apply Hnext. lia. }
    destruct (N.eqb_spec c 34) as [->|H34].
    { cbn [app]. rewrite (lex_escape _ _ 34) by reflexivity. apply Hnext. lia. }
    destruct (N.eqb_spec c 92) as [->|H92].
    { cbn [app]. rewrite (lex_escape _ _ 92) by reflexivity. apply Hnext. lia. }
    destruct (N.ltb_spec c 32) as [H32|H32].
    { rewrite <- app_assoc, lex_UnicodeEscape by lia. apply Hnext. lia. }
    destruct (is_high_surrogate c) eqn:Ehi.
    { destruct (surrogate_range c (or_introl Ehi)) as (_ & _ & _ & Hc).
      destruct s as [|d s'].
      - rewrite lex_UnicodeEscape by exact Hc. apply (Hnext []). simpl. lia.
      - destruct (is_low_surrogate d) eqn:Elo.
        + destruct (surrogate_range d (or_intror Elo)) as (Hd1 & Hd2 & Hd3 & _).
          cbn [app]. rewrite lex_plain by assumption.
          rewrite lex_plain by assumption.
          rewrite IH by (simpl in Hlen; lia). cbn [rev].
          now rewrite <- !app_assoc.
        + rewrite <- app_assoc, lex_UnicodeEscape by exact Hc.
          apply Hnext. lia. }
    destruct (is_low_surrogate c) eqn:Elo.
    { destruct (surrogate_range c (or_intror Elo)) as (_ & _ & _ & Hc).
      rewrite <- app_assoc, lex_UnicodeEscape by exact Hc. apply Hnext. lia. }
    cbn [app]. rewrite lex_plain by assumption. apply Hnext. lia.
Qed.

(** A string as [QuoteJSONString] writes it is lexed as that string. *)
Lemma lex_QuoteJSONString (s rest : jsstring) :
  lex LStart (QuoteJSONString s ++ rest)
  = option_map (cons (TString s)) (lex LStart rest).
Proof.
  unfold QuoteJSONString. cbn [app].
  rewrite (lex_quiet _ _ _ (LStr [])) by reflexivity.
  rewrite <- app_assoc. cbn [app].
  now rewrite (lex_quote_body (List.length s)).
Qed.

End LexFacts.

(** ** What the page writes is read back *)

Section RoundTrip.
Local Open Scope N_scope.

(** The text of a task is lexed as its tokens. *)
Lemma lex_Task (t : Task) (rest : jsstring) :
  lex LStart (stringify_Task t ++ rest)
  = option_map (app (Task_tokens t)) (lex LStart rest).
Proof.
  unfold stringify_Task, member. rewrite <- !app_assoc. cbn [app].
  rewrite (lex_cons _ _ _ [TLBrace] LStart) by reflexivity.
  rewrite lex_QuoteJSONString.
  rewrite (lex_cons _ _ _ [TColon] LStart) by reflexivity.
  rewrite lex_Number_comma.
  rewrite lex_QuoteJSONString.
  rewrite (lex_cons _ _ _ [TColon] LStart) by reflexivity.
  rewrite lex_QuoteJSONString.
  rewrite (lex_cons _ _ _ [TComma] LStart) by reflexivity.
  rewrite lex_QuoteJSONString.
  rewrite (lex_cons _ _ _ [TColon] LStart) by reflexivity.
  assert (Hbool : forall r,
    lex LStart (lit (if completed t then "true" else "false") ++ r)
    = option_map (cons (if completed t then TTrue else TFalse)) (lex LStart r)).
  { intros r. destruct (completed t).
    - change (lit "true") with [116; 114; 117; 101]. cbn [app].
      rewrite (lex_quiet _ _ _ (LWord [114; 117; 101] TTrue)) by reflexivity.
      rewrite (lex_quiet _ _ _ (LWord [117; 101] TTrue)) by reflexivity.
      rewrite (lex_quiet _ _ _ (LWord [101] TTrue)) by reflexivity.
      now rewrite (lex_cons _ _ _ [TTrue] LStart).
    - change (lit "false") with [102; 97; 108; 115; 101]. cbn [app].
      rewrite (lex_quiet _ _ _ (LWord [97; 108; 115; 101] TFalse)) by reflexivity.
      rewrite (lex_quiet _ _ _ (LWord [108; 115; 101] TFalse)) by reflexivity.
      rewrite (lex_quiet _ _ _ (LWord [115; 101] TFalse)) by reflexivity.
      rewrite (lex_quiet _ _ _ (LWord [101] TFalse)) by reflexivity.
      now rewrite (lex_cons _ _ _ [TFalse] LStart). }
  rewrite Hbool.
  rewrite (lex_cons _ _ _ [TComma] LStart) by reflexivity.
  rewrite lex_QuoteJSONString.
  rewrite (lex_cons _ _ _ [TColon] LStart) by reflexivity.
  rewrite lex_QuoteJSONString.
  rewrite (lex_cons _ _ _ [TRBrace] LStart) by reflexivity.
  now destruct (lex LStart rest).
Qed.

Lemma join_comma_cons (p : jsstring) (ps : list jsstring) (tail : jsstring) :
  join_comma (p :: ps) ++ tail = p ++ flat_map (fun q => 44 :: q) ps ++ tail.
Proof.
  revert p. induction ps as [|q ps IH]; intros p; [reflexivity|].
  change (join_comma (p :: q :: ps)) with (p ++ [44] ++ join_comma (q :: ps)).
  rewrite <- !app_assoc, IH. cbn [flat_map app]. now rewrite <- app_assoc.
Qed.

Lemma lex_more_tasks (ts : list Task) :
  lex LStart (flat_map (fun q => 44 :: q) (map stringify_Task ts) ++ [93])
  = Some (flat_map (fun u => TComma :: Task_tokens u) ts ++ [TRBracket]).
Proof.
  induction ts as [|t ts IH]; [reflexivity|].
  cbn [map flat_map]. rewrite <- !app_assoc. cbn [app].
  rewrite (lex_cons _ _ _ [TComma] LStart) by reflexivity.
  rewrite lex_Task, IH. cbn [option_map app]. reflexivity.
Qed.

(** The text of a list is lexed as its tokens. *)
Lemma lex_JSON_stringify (ts : list Task) :
  lex LStart (JSON_stringify ts) = Some (tasks_tokens ts).
Proof.
  unfold JSON_stringify. destruct ts as [|t ts]; [reflexivity|].
  cbn [map app]. rewrite (lex_cons _ _ _ [TLBracket] LStart) by reflexivity.
  rewrite join_comma_cons, lex_Task, lex_more_tasks. reflexivity.
Qed.

(** The tokens of a task are parsed as its JSON value. *)
Lemma parse_Task (t : Task) (stk : list frame) (rest : list token) :
  parse (PValue stk) (Task_tokens t ++ rest)
  = parse (deliver (Task_json t) stk) rest.
Proof. unfold Task_json, Task_tokens. destruct (completed t); reflexivity. Qed.

Lemma parse_more_tasks (ts : list Task) (done : list json) :
  parse (PAfterElem done [])
    (flat_map (fun u => TComma :: Task_tokens u) ts ++ [TRBracket])
  = Some (JArray (rev done ++ map Task_json ts)).
Proof.
  revert done. induction ts as [|t ts IH]; intros done.
  - cbn. now rewrite app_nil_r.
  - cbn [flat_map map]. rewrite <- app_assoc, <- app_comm_cons.
    cbn [parse parse_step]. rewrite parse_Task. cbn [deliver].
    rewrite IH. cbn [rev]. now rewrite <- app_assoc.
Qed.

(** The tokens of a list are parsed as the array of its JSON values. *)
Lemma parse_tasks_tokens (ts : list Task) :
  parse (PValue []) (tasks_tokens ts) = Some (JArray (map Task_json ts)).
Proof.
  destruct ts as [|t ts]; [reflexivity|].
  unfold tasks_tokens. cbn [parse parse_step begin_value].
  assert (H : forall rest,
    parse (PFirstElem []) (Task_tokens t ++ rest)
    = parse (PAfterElem [Task_json t] []) rest).
  { intros rest. unfold Task_json, Task_tokens.
    destruct (completed t); reflexivity. }
  rewrite H, parse_more_tasks. reflexivity.
Qed.

(** [JSON.parse(JSON.stringify(tasks))]. *)
Lemma JSON_parse_stringify (ts : list Task) :
  JSON_parse (JSON_stringify ts) = Some (JArray (map Task_json ts)).
Proof.
  unfold JSON_parse. rewrite lex_JSON_stringify. apply parse_tasks_tokens.
Qed.

End RoundTrip.

(** The callback of the load effect gives the task back. *)
Lemma revive_Task_json (t : Task) :
  representable t -> revive (Task_json t) = Some t.
Proof.
  intros [Hid Hdate]. unfold Task_json, revive.
  change (jsstring_eqb (lit "id") (lit "id")) with true.
  change (jsstring_eqb (lit "text") (lit "text")) with true.
  change (jsstring_eqb (lit "completed") (lit "completed")) with true.
  change (jsstring_eqb (lit "createdAt") (lit "createdAt")) with true.
  cbn [andb]. rewrite Hid, Date_parse_toISOString by exact Hdate.
  now destruct t.
Qed.

Lemma revive_all_Task_json (ts : list Task) :
  Forall representable ts -> revive_all (map Task_json ts) = Some ts.
Proof.
  induction 1 as [|t ts Ht _ IH]; [reflexivity|].
  cbn [map revive_all]. now rewrite revive_Task_json, IH.
Qed.

Lemma no_null_Task_json (ts : list Task) :
  existsb is_null (map Task_json ts) = false.
Proof. induction ts as [|t ts IH]; [reflexivity | exact IH]. Qed.

(** The [try] block on what the save effect wrote. *)
Lemma parseSaved_stringify (ts : list Task) :
  Forall representable ts -> parseSaved (JSON_stringify ts) = Returned ts.
Proof.
  intros H. unfold parseSaved.
  now rewrite JSON_parse_stringify, no_null_Task_json, revive_all_Task_json.
Qed.

Lemma JSON_stringify_cons (ts : list Task) :
  exists s, JSON_stringify ts = 91%N :: s.
Proof. unfold JSON_stringify. cbn [app]. eauto. Qed.

(** Mounting over what the save effect wrote. *)
Lemma mount_stringify (ts : list Task) :
  Forall representable ts ->
  mount (Some (JSON_stringify ts))
  = Some {| page := setTasks ts initial;
            storage := run_calls (saveEffect ts) (Some (JSON_stringify ts));
            console := [] |}.
Proof.
  intros H. unfold mount. destruct (JSON_stringify_cons ts) as [s E].
  rewrite E at 1 2. rewrite <- E.
  now rewrite parseSaved_stringify.
Qed.

(* ================================================================== *)
(** * Properties of the handlers *)
(* ================================================================== *)

Lemma is_empty_false (s : jsstring) : is_empty s = false <-> s <> [].
Proof. destruct s; simpl; split; congruence. Qed.

(** ** Adding *)

(** What a submit does to the list: typing [input] and submitting changes
    nothing when [input] trims to the empty string: the list and the rest
    of the state stay as they were, and [setTasks] is not called. Otherwise
    it appends
    exactly one task, with the trimmed text, not completed, its id and
    creation date read from the clock, after the tasks that were there,
    which stay as they were. *)
Theorem add_validity (input : jsstring) (now today : Z) (h : Home) :
  let typed := next (handle (TypeInput input) h) in
  let added := handle (Submit now today) typed in
  (trim input = [] ->
   next added = typed /\ tasks (next added) = tasks h
   /\ tasksSet added = false)
  /\ (trim input <> [] ->
      tasks (next added) =
      tasks h ++ [ {| id := now; text := trim input; completed := false;
                      createdAt := today |} ]).
Proof.
  simpl. unfold addTask. simpl. split; intros H.
  - rewrite H. simpl. auto.
  - apply is_empty_false in H. rewrite H. reflexivity.
Qed.

Example add_empty (now today : Z) (h : Home) :
  next (addTask now today (setInputValue (lit "") h)) = setInputValue (lit "") h.
Proof. reflexivity. Qed.

Example add_blank (now today : Z) (h : Home) :
  next (addTask now today (setInputValue (lit "   ") h))
  = setInputValue (lit "   ") h.
Proof. reflexivity. Qed.

Example add_buy_milk (now today : Z) (h : Home) :
  tasks (next (addTask now today (setInputValue (lit " buy milk ") h)))
  = tasks h ++ [ {| id := now; text := lit "buy milk"; completed := false;
                    createdAt := today |} ].
Proof. reflexivity. Qed.

(** ** Toggling *)

Lemma toggle_toggle (i : Z) (t : Task) : toggle i (toggle i t) = t.
Proof.
  unfold toggle. destruct (id t =? i)%Z eqn:E; simpl.
  - rewrite E. destruct t; simpl. now rewrite negb_involutive.
  - now rewrite E.
Qed.

Lemma toggle_other (i : Z) (ts : list Task) :
  ~ In i (map id ts) -> map (toggle i) ts = ts.
Proof.
  induction ts as [|t ts IH]; simpl; intros H; [reflexivity|].
  rewrite IH by tauto. unfold toggle.
  destruct (Z.eqb_spec (id t) i) as [E|E]; [exfalso; tauto | reflexivity].
Qed.

Lemma toggle_fields (i : Z) (ts : list Task) :
  Forall2
    (fun t t' =>
       id t' = id t /\ text t' = text t /\ createdAt t' = createdAt t
       /\ completed t' =
          (if (id t =? i)%Z then negb (completed t) else completed t))
    ts (map (toggle i) ts).
Proof.
  induction ts as [|t ts IH]; simpl; constructor; [|exact IH].
  unfold toggle. destruct (id t =? i)%Z; simpl; auto.
Qed.

(** C7. Toggle pairing: toggling the same id twice gives back the list, task
    for task and in the same order. One toggle keeps the length and the order
    of the list and the id, text and creation date of every task; it flips
    [completed] exactly in the tasks whose id matches, and leaves the list as
    it was when no task has this id. *)
Theorem toggle_involution (i : Z) (h : Home) :
  tasks (next (toggleTask i (next (toggleTask i h)))) = tasks h
  /\ Forall2
       (fun t t' =>
          id t' = id t /\ text t' = text t /\ createdAt t' = createdAt t
          /\ completed t' =
             (if (id t =? i)%Z then negb (completed t) else completed t))
       (tasks h) (tasks (next (toggleTask i h)))
  /\ (~ In i (map id (tasks h)) -> tasks (next (toggleTask i h)) = tasks h).
Proof.
  simpl. repeat split.
  - rewrite map_map. rewrite <- (map_id (tasks h)) at 2.
    apply map_ext. intros t. apply toggle_toggle.
  - apply toggle_fields.
  - apply toggle_other.
Qed.

(** ** Filtering *)

Lemma filter_subsequence {A : Type} (p : A -> bool) (l : list A) :
  subsequence (List.filter p l) l.
Proof.
  induction l as [|x l IH]; simpl; [constructor|].
  destruct (p x); constructor; exact IH.
Qed.

Lemma filter_true {A : Type} (l : list A) : List.filter (fun _ => true) l = l.
Proof. induction l as [|x l IH]; simpl; congruence. Qed.

Lemma merge_back_filter (ts : list Task) :
  merge_back (map completed ts)
    (List.filter (fun t => negb (completed t)) ts)
    (List.filter (fun t => completed t) ts) = ts.
Proof.
  induction ts as [|t ts IH]; simpl; [reflexivity|].
  destruct (completed t); simpl; now rewrite IH.
Qed.

(** C4. Filter partition: the view under "all" is the whole list; the view
    under "active" holds the tasks that are not completed and the view under
    "completed" those that are, each in the order of the list; no task is in
    both views; and putting the two views back into the positions their tasks
    had gives the whole list again. *)
Theorem filter_partition (h : Home) :
  let view f := filteredTasks (setFilter f h) in
  view All = tasks h
  /\ view Active = List.filter (fun t => negb (completed t)) (tasks h)
  /\ view Completed = List.filter (fun t => completed t) (tasks h)
  /\ subsequence (view Active) (tasks h)
  /\ subsequence (view Completed) (tasks h)
  /\ (forall t, In t (view Active) -> In t (view Completed) -> False)
  /\ merge_back (map completed (tasks h)) (view Active) (view Completed)
     = tasks h
  /\ activeCount h = List.length (view Active)
  /\ completedCount h = List.length (view Completed)
  /\ (activeCount h + completedCount h = List.length (tasks h))%nat.
Proof.
  unfold filteredTasks, activeCount, completedCount. simpl.
  repeat split.
  - apply filter_true.
  - apply filter_subsequence.
  - apply filter_subsequence.
  - intros t Ha Hc. apply filter_In in Ha. apply filter_In in Hc.
    destruct Ha as [_ Ha]. destruct Hc as [_ Hc]. rewrite Hc in Ha.
    discriminate.
  - apply merge_back_filter.
  - induction (tasks h) as [|t ts IH]; simpl; [reflexivity|].
    destruct (completed t); simpl; lia.
Qed.

(** ** The edit session *)

Lemma retext_other (i : Z) (s : jsstring) (ts : list Task) :
  ~ In i (map id ts) -> map (retext i s) ts = ts.
Proof.
  induction ts as [|t ts IH]; simpl; intros H; [reflexivity|].
  rewrite IH by tauto. unfold retext.
  destruct (Z.eqb_spec (id t) i) as [E|E]; [exfalso; tauto | reflexivity].
Qed.

(** C10. Saving an edit whose scratch text trims to the empty string changes
    nothing: the list, the edit session and the rest of the state stay, and
    the session is still open. Saving any other scratch text closes the
    session, whether or not a task has the id; when none has, the list stays
    as it was. *)
Theorem saveEdit_session (i : Z) (h : Home) :
  (trim (editingText h) = [] ->
   next (saveEdit i h) = h /\ tasksSet (saveEdit i h) = false)
  /\ (trim (editingText h) <> [] ->
      editingId (next (saveEdit i h)) = None
      /\ editingText (next (saveEdit i h)) = []
      /\ (~ In i (map id (tasks h)) -> tasks (next (saveEdit i h)) = tasks h)).
Proof.
  unfold saveEdit. split; intros H.
  - rewrite H. simpl. auto.
  - apply is_empty_false in H. rewrite H. simpl. repeat split.
    apply retext_other.
Qed.

(** ** Persistence on change *)

Lemma saveEffect_cons (t : Task) (ts : list Task) :
  saveEffect (t :: ts) = [setItem (JSON_stringify (t :: ts))].
Proof. reflexivity. Qed.

Ltac set_case Hset :=
  match goal with
  | |- context [storage_calls ?u] =>
      let H := fresh in
      destruct (Hset u eq_refl eq_refl) as [H|H]; [left | right; left];
      exact H
  end.

(** The calls an event leads to are one of three: none at all, one write of
    the list the event leaves (which is then not empty), or one removal (the
    event then is a delete or a clear and leaves the empty list). *)
Lemma storage_calls_cases (e : event) (h : Home) :
  let u := handle e h in
  (storage_calls u = [] /\ (tasksSet u = true -> tasks (next u) = []))
  \/ (storage_calls u = [setItem (JSON_stringify (tasks (next u)))]
      /\ tasks (next u) <> [])
  \/ (storage_calls u = [removeItem] /\ tasks (next u) = []
      /\ (e = ClearAll \/ exists i, e = Delete i)).
Proof.
  assert (Hset : forall u, tasksSet u = true -> calls u = [] ->
            (storage_calls u = [] /\ (tasksSet u = true -> tasks (next u) = []))
            \/ (storage_calls u = [setItem (JSON_stringify (tasks (next u)))]
                /\ tasks (next u) <> [])).
  { intros u Hs Hc. unfold storage_calls. rewrite Hs, Hc. simpl.
    destruct (tasks (next u)) as [|t ts]; [left; auto | right].
    split; [reflexivity | discriminate]. }
  assert (Hun : forall h', storage_calls (unchanged h') = []
                           /\ (tasksSet (unchanged h') = true ->
                               tasks (next (unchanged h')) = [])).
  { intros h'. split; [reflexivity | discriminate]. }
  destruct e; simpl.
  - left. apply Hun.
  - unfold addTask. destruct (is_empty (trim (inputValue h))).
    + left. apply Hun.
    + set_case Hset.
  - set_case Hset.
  - unfold deleteTask, storage_calls. simpl.
    destruct (List.filter (fun task => negb (id task =? i)%Z) (tasks h))
      as [|t ts] eqn:E; simpl.
    + right; right. repeat split. right. now exists i.
    + right; left. split; [reflexivity | discriminate].
  - right; right. repeat split. now left.
  - left. split; [reflexivity | discriminate].
  - left. apply Hun.
  - unfold saveEdit. destruct (is_empty (trim (editingText h))).
    + left. apply Hun.
    + set_case Hset.
  - left. split; [reflexivity | discriminate].
  - left. apply Hun.
Qed.

(** C1. Persistence asymmetry. Whatever the event: a value is written into
    the slot only when the list the event leaves is not empty, and the value
    is then the serialized list; an event that sets a non-empty list leaves
    the slot holding that list, serialized; a delete or a clear that leaves
    the empty list removes the slot, which is then absent. In particular,
    deleting the only task of a list leaves the slot absent. *)
Theorem persistence_asymmetry (e : event) (w : World) :
  let u := handle e (page w) in
  let w' := dispatch e w in
  (forall v, In (setItem v) (storage_calls u) ->
     tasks (page w') <> [] /\ v = JSON_stringify (tasks (page w')))
  /\ (tasksSet u = true -> tasks (page w') <> [] ->
      storage w' = Some (JSON_stringify (tasks (page w'))))
  /\ ((e = ClearAll \/ exists i, e = Delete i) -> tasks (page w') = [] ->
      storage_calls u = [removeItem] /\ storage w' = None)
  /\ (forall t, tasks (page w) = [t] ->
      tasks (page (dispatch (Delete (id t)) w)) = []
      /\ storage (dispatch (Delete (id t)) w) = None).
Proof.
  simpl. unfold dispatch. simpl.
  pose proof (storage_calls_cases e (page w)) as H. simpl in H.
  repeat split.
  - destruct H as [[H _]|[[H H']|[H _]]]; rewrite H in H0; simpl in H0;
      [tauto | | ]; destruct H0 as [H0|[]]; congruence.
  - destruct H as [[H _]|[[H H']|[H _]]]; rewrite H in H0; simpl in H0;
      [tauto | | ]; destruct H0 as [H0|[]]; congruence.
  - intros Hs Hne. destruct H as [[_ H]|[[H _]|[_ [H _]]]].
    + exfalso. auto.
    + rewrite H. reflexivity.
    + exfalso. auto.
  - destruct H as [[H H']|[[_ H]|[H _]]]; [ | congruence | exact H].
    destruct H0 as [->|[i ->]]; simpl in *; [discriminate|].
    unfold storage_calls in H. simpl in H. simpl in H1. rewrite H1 in H.
    discriminate.
  - destruct H as [[H H']|[[_ H]|[H _]]]; [ | congruence | now rewrite H].
    destruct H0 as [->|[i ->]]; simpl in *; [discriminate|].
    unfold storage_calls in H. simpl in H. simpl in H1. rewrite H1 in H.
    discriminate.
  - rewrite H0. simpl. now rewrite Z.eqb_refl.
  - unfold storage_calls. simpl. rewrite H0. simpl. now rewrite Z.eqb_refl.
Qed.

(** ** Trimming *)

Lemma trimStart_clean (s : jsstring) : starts_clean (trimStart s).
Proof.
  induction s as [|c s IH]; simpl; [exact I|].
  destruct (is_white_space c) eqn:E; [exact IH | exact E].
Qed.

Lemma trimStart_fix (s : jsstring) : starts_clean s -> trimStart s = s.
Proof. destruct s as [|c s]; simpl; [reflexivity|]. now intros ->. Qed.

Lemma trimStart_suffix (s : jsstring) : exists ws, s = ws ++ trimStart s.
Proof.
  induction s as [|c s [ws IH]]; simpl; [now exists []|].
  destruct (is_white_space c).
  - exists (c :: ws). simpl. now rewrite <- IH.
  - now exists [].
Qed.

Lemma trimEnd_prefix (s : jsstring) : exists ws, s = trimEnd s ++ ws.
Proof.
  unfold trimEnd. destruct (trimStart_suffix (rev s)) as [ws H].
  exists (rev ws). rewrite <- rev_app_distr, <- H. now rewrite rev_involutive.
Qed.

Lemma trimEnd_clean (s : jsstring) : starts_clean s -> starts_clean (trimEnd s).
Proof.
  intros H. destruct (trimEnd_prefix s) as [ws E].
  destruct (trimEnd s) as [|c r]; [exact I|].
  rewrite E in H. exact H.
Qed.

Lemma trimEnd_trimEnd (s : jsstring) : trimEnd (trimEnd s) = trimEnd s.
Proof.
  unfold trimEnd. rewrite rev_involutive.
  now rewrite (trimStart_fix _ (trimStart_clean (rev s))).
Qed.

(** Trimming twice is trimming once. *)
Lemma trim_trim (s : jsstring) : trim (trim s) = trim s.
Proof.
  unfold trim.
  rewrite (trimStart_fix (trimEnd (trimStart s))).
  - apply trimEnd_trimEnd.
  - apply trimEnd_clean, trimStart_clean.
Qed.

Lemma trim_valid (s : jsstring) : trim s <> [] -> valid_text (trim s).
Proof. intros H. split; [exact H | apply trim_trim]. Qed.

(** ** Editing *)

Lemma retext_same (i : Z) (s : jsstring) (t : Task) :
  text t = s -> retext i s t = t.
Proof.
  intros <-. unfold retext. destruct (id t =? i)%Z; [|reflexivity].
  now destruct t.
Qed.

Lemma retext_other_id (i : Z) (s : jsstring) (t : Task) :
  id t <> i -> retext i s t = t.
Proof.
  intros H. unfold retext.
  destruct (Z.eqb_spec (id t) i); [contradiction | reflexivity].
Qed.

Lemma NoDup_map_id_eq (ts : list Task) (n : nat) (t u : Task) :
  NoDup (map id ts) -> nth_error ts n = Some t -> In u ts -> id u = id t ->
  u = t.
Proof.
  revert n. induction ts as [|a ts IH]; intros n Hnd Hn Hin Hid.
  - destruct n; discriminate.
  - simpl in Hnd. inversion Hnd as [|? ? Hnot Hnd']; subst.
    destruct n as [|n]; simpl in Hn.
    + injection Hn as ->. destruct Hin as [->|Hin]; [reflexivity|].
      exfalso. apply Hnot. rewrite <- Hid. now apply in_map.
    + destruct Hin as [->|Hin].
      * exfalso. apply Hnot. rewrite Hid. apply in_map.
        eapply nth_error_In; eauto.
      * eapply IH; eauto.
Qed.



(** ** Ids *)

Lemma NoDup_map_filter {A B : Type} (f : A -> B) (p : A -> bool) (l : list A) :
  NoDup (map f l) -> NoDup (map f (List.filter p l)).
Proof.
  induction l as [|x l IH]; simpl; intros H; [exact H|].
  inversion H as [|? ? Hnot Hnd]; subst.
  destruct (p x); simpl; [constructor|]; auto.
  intros Hin. apply Hnot. apply in_map_iff in Hin.
  destruct Hin as [y [Hy Hin]]. apply filter_In in Hin.
  apply in_map_iff. exists y. tauto.
Qed.

Lemma map_id_toggle (i : Z) (ts : list Task) :
  map id (map (toggle i) ts) = map id ts.
Proof.
  rewrite map_map. apply map_ext. intros t. unfold toggle.
  now destruct (id t =? i)%Z.
Qed.

Lemma map_id_retext (i : Z) (s : jsstring) (ts : list Task) :
  map id (map (retext i s) ts) = map id ts.
Proof.
  rewrite map_map. apply map_ext. intros t. unfold retext.
  now destruct (id t =? i)%Z.
Qed.

(** Ids stay distinct as long as the clock reads a value no task has yet as
    its id each time a task is added. *)
Lemma ids_distinct_step (e : event) (h : Home) :
  NoDup (map id (tasks h)) ->
  (forall now today, e = Submit now today -> ~ In now (map id (tasks h))) ->
  NoDup (map id (tasks (next (handle e h)))).
Proof.
  intros Hnd Hfresh. destruct e; simpl; try exact Hnd.
  - unfold addTask. destruct (is_empty (trim (inputValue h))); [exact Hnd|].
    simpl. rewrite map_app. simpl.
    apply NoDup_app; [exact Hnd | repeat constructor; intros [] | ].
    intros x Hx [<-|[]]. exact (Hfresh _ _ eq_refl Hx).
  - now rewrite map_id_toggle.
  - now apply NoDup_map_filter.
  - constructor.
  - unfold saveEdit. destruct (is_empty (trim (editingText h))); [exact Hnd|].
    simpl. now rewrite map_id_retext.
Qed.

(** C2 (what the page does). Add validity but for the id: a submit of an
    input that does not trim to the empty string appends exactly one task
    after the tasks that were there, with the trimmed text, not completed,
    created at the reading of the clock; but its id is just the reading of
    the clock, compared with nothing. When a task of the list has that
    reading as its id already, the new task gets the same id: it is not
    fresh, and the ids of the list are no longer distinct. *)
Theorem add_repeats_an_id (input : jsstring) (now today : Z) (h : Home) :
  trim input <> [] ->
  In now (map id (tasks h)) ->
  let typed := next (handle (TypeInput input) h) in
  let added := next (handle (Submit now today) typed) in
  exists task,
    tasks added = tasks h ++ [task]
    /\ text task = trim input /\ completed task = false
    /\ createdAt task = today
    /\ In (id task) (map id (tasks h))
    /\ (NoDup (map id (tasks added)) -> False).
Proof.
  intros Hne Hin. cbn [handle unchanged next]. unfold addTask.
  cbn [inputValue setInputValue]. apply is_empty_false in Hne. rewrite Hne.
  cbn [next tasks setTasks setInputValue].
  eexists. split; [reflexivity|]. cbn [text completed createdAt id].
  repeat split; [exact Hin|].
  rewrite map_app. cbn [map id]. intros Hnd.
  apply NoDup_remove_2 in Hnd. apply Hnd. now rewrite app_nil_r.
Qed.

Lemma add_repeats_an_id_witness :
  trim (lit "b") <> []
  /\ In 1700000000000%Z (map id (tasks (page milk_world)))
  /\ exists task,
       tasks (next (handle (Submit 1700000000000 1700000000002)
                      (next (handle (TypeInput (lit "b"))
                               (page milk_world)))))
       = tasks (page milk_world) ++ [task]
       /\ text task = trim (lit "b") /\ completed task = false
       /\ createdAt task = 1700000000002%Z
       /\ In (id task) (map id (tasks (page milk_world)))
       /\ (NoDup
             (map id
                (tasks (next (handle (Submit 1700000000000 1700000000002)
                                (next (handle (TypeInput (lit "b"))
                                         (page milk_world)))))))
           -> False).
Proof.
  assert (Hne : trim (lit "b") <> []) by discriminate.
  assert (Hin : In 1700000000000%Z (map id (tasks (page milk_world))))
    by (left; reflexivity).
  split; [exact Hne|]. split; [exact Hin|].
  exact (add_repeats_an_id (lit "b") 1700000000000 1700000000002
           (page milk_world) Hne Hin).
Defined.

(** C3 (what the page does). Two tasks added while the clock reads the same
    millisecond get the same id: the ids of the list are no longer distinct,
    one toggle then flips both tasks and one delete removes both. *)
Theorem same_millisecond_same_id :
  let add s w := dispatch (Submit 1700000000000 1700000000000)
                   (dispatch (TypeInput (lit s)) w) in
  let w := add "b"%string (add "a"%string first_visit) in
  map id (tasks (page w)) = [1700000000000%Z; 1700000000000%Z]
  /\ map text (tasks (page w)) = [lit "a"; lit "b"]
  /\ map completed (tasks (page (dispatch (Toggle 1700000000000) w)))
     = [true; true]
  /\ tasks (page (dispatch (Delete 1700000000000) w)) = [].
Proof. repeat split. Qed.

(* ================================================================== *)
(** * Properties of loading and saving *)
(* ================================================================== *)

(** ** Loading a slot that cannot be read *)

Lemma mount_thrown (c : N) (s : jsstring) (e : js_error) :
  parseSaved (c :: s) = Thrown e ->
  mount (Some (c :: s))
  = Some {| page := initial; storage := Some (c :: s);
            console := [(load_message, e)] |}.
Proof. intros H. unfold mount. now rewrite H. Qed.

Lemma parseSaved_syntax (s : jsstring) :
  JSON_parse s = None -> parseSaved s = Thrown SyntaxError.
Proof. intros H. unfold parseSaved. now rewrite H. Qed.

(** C6 (as the page has it). Load failure safety: mounting never fails on a
    slot that is absent, empty or holds text that the [try] block cannot
    read, and the page then is the initial one, with the empty list, as on a
    first visit; the slot is left as it was. Nothing is reported when the
    slot is absent or holds the empty string, which the page does not try to
    parse; the error is reported, once, when the slot holds a non-empty
    string on which the [try] block throws: a SyntaxError when the text is
    not JSON. *)
Theorem load_failure_safety (s : jsstring) :
  mount None = Some {| page := initial; storage := None; console := [] |}
  /\ mount (Some [])
     = Some {| page := initial; storage := Some []; console := [] |}
  /\ (s <> [] -> JSON_parse s = None ->
      mount (Some s)
      = Some {| page := initial; storage := Some s;
                console := [(load_message, SyntaxError)] |})
  /\ (s <> [] -> forall e, parseSaved s = Thrown e ->
      mount (Some s)
      = Some {| page := initial; storage := Some s;
                console := [(load_message, e)] |}).
Proof.
  repeat split.
  - intros Hs Hp. destruct s as [|c s]; [contradiction|].
    now apply mount_thrown, parseSaved_syntax.
  - intros Hs e Hp. destruct s as [|c s]; [contradiction|].
    now apply mount_thrown.
Qed.

Example load_not_json :
  mount (Some (lit "not json"))
  = Some {| page := initial; storage := Some (lit "not json");
            console := [(load_message, SyntaxError)] |}.
Proof. reflexivity. Qed.

Example load_not_an_array :
  mount (Some (lit "{}"))
  = Some {| page := initial; storage := Some (lit "{}");
            console := [(load_message, TypeError)] |}.
Proof. reflexivity. Qed.

Example load_null_element :
  mount (Some (lit "[null]"))
  = Some {| page := initial; storage := Some (lit "[null]");
            console := [(load_message, TypeError)] |}.
Proof. reflexivity. Qed.

(** C6 (as claimed) fails: the empty string is a slot value that does not
    parse, and an absent slot is the other case the claim names; in both the
    list is empty but nothing reaches [console.error]. *)
Lemma load_reports_nothing_for_empty_slot :
  JSON_parse [] = None
  /\ option_map console (mount (Some [])) = Some []
  /\ option_map console (mount None) = Some [].
Proof. repeat split. Qed.

(** ** Loading what was saved *)

(** C9. Load round trip: for every list of tasks (with ids and dates the
    platform can hold), the text [JSON.stringify] writes is read back by the
    load effect as the same list: the same tasks in the same order, each with
    the same id, text, completed flag and creation date, to the
    millisecond. So saving the list into an absent slot (which writes
    nothing when the list is empty) and mounting the page again shows the
    list, and nothing is reported. *)
Theorem load_round_trip (ts : list Task) :
  Forall representable ts ->
  parseSaved (JSON_stringify ts) = Returned ts
  /\ exists w,
       mount (run_calls (saveEffect ts) None) = Some w
       /\ tasks (page w) = ts /\ console w = [].
Proof.
  intros H. split; [now apply parseSaved_stringify|].
  destruct ts as [|t ts].
  - eexists. repeat split.
  - rewrite saveEffect_cons. cbn [run_calls fold_left run_call].
    rewrite mount_stringify by exact H. eexists. repeat split.
Qed.

Lemma load_round_trip_witness :
  Forall representable three_tasks
  /\ parseSaved (JSON_stringify three_tasks) = Returned three_tasks.
Proof.
  assert (H : Forall representable three_tasks)
    by (repeat constructor).
  split; [exact H | exact (proj1 (load_round_trip three_tasks H))].
Defined.

(** ** The text of a task *)

Lemma text_toggle (i : Z) (t : Task) : text (toggle i t) = text t.
Proof. unfold toggle. now destruct (id t =? i)%Z. Qed.

Lemma representable_toggle (i : Z) (t : Task) :
  representable t -> representable (toggle i t).
Proof. unfold toggle. now destruct (id t =? i)%Z. Qed.

Lemma representable_retext (i : Z) (s : jsstring) (t : Task) :
  representable t -> representable (retext i s t).
Proof. unfold retext. now destruct (id t =? i)%Z. Qed.

Lemma Forall_filter {A : Type} (P : A -> Prop) (p : A -> bool) (l : list A) :
  Forall P l -> Forall P (List.filter p l).
Proof.
  rewrite !Forall_forall. intros H x Hx. apply filter_In in Hx. now apply H.
Qed.

Lemma Forall_map_same {A : Type} (P : A -> Prop) (f : A -> A) (l : list A) :
  (forall x, P x -> P (f x)) -> Forall P l -> Forall P (map f l).
Proof. intros Hf H. induction H; simpl; constructor; auto. Qed.

(** Every handler keeps the texts of the list valid: [addTask] and
    [saveEdit] store a trimmed text, and only when it is not empty. *)
Lemma handle_text_valid (e : event) (h : Home) :
  Forall (fun t => valid_text (text t)) (tasks h) ->
  Forall (fun t => valid_text (text t)) (tasks (next (handle e h))).
Proof.
  intros H. destruct e; simpl; try exact H.
  - unfold addTask. destruct (is_empty (trim (inputValue h))) eqn:E; [exact H|].
    simpl. apply Forall_app. split; [exact H|]. constructor; [|constructor].
    simpl. apply trim_valid. now apply is_empty_false.
  - apply Forall_map_same; [|exact H]. intros t. now rewrite text_toggle.
  - now apply Forall_filter.
  - constructor.
  - unfold saveEdit. destruct (is_empty (trim (editingText h))) eqn:E; [exact H|].
    simpl. apply Forall_map_same; [|exact H]. intros t Ht. unfold retext.
    destruct (id t =? i)%Z; [|exact Ht]. simpl. apply trim_valid.
    now apply is_empty_false.
Qed.

Lemma time_value_safe (t : Z) :
  is_time_value t = true -> is_safe_integer t = true.
Proof.
  unfold is_time_value, is_safe_integer.
  rewrite !andb_true_iff, !Z.leb_le. lia.
Qed.

(** Every handler keeps the ids and dates representable, the clock giving
    time values. *)
Lemma handle_representable (e : event) (h : Home) :
  clock_ok e ->
  Forall representable (tasks h) ->
  Forall representable (tasks (next (handle e h))).
Proof.
  intros Hc H. destruct e; simpl; try exact H.
  - unfold addTask. destruct (is_empty (trim (inputValue h))); [exact H|].
    simpl. apply Forall_app. split; [exact H|]. constructor; [|constructor].
    destruct Hc as [Hnow Htoday]. split; simpl; [|exact Htoday].
    now apply time_value_safe.
  - apply Forall_map_same; [|exact H]. intros t. apply representable_toggle.
  - now apply Forall_filter.
  - constructor.
  - unfold saveEdit. destruct (is_empty (trim (editingText h))); [exact H|].
    simpl. apply Forall_map_same; [|exact H]. intros t.
    apply representable_retext.
Qed.

Lemma Forall_sound (ts : list Task) :
  Forall sound ts
  <-> Forall (fun t => valid_text (text t)) ts /\ Forall representable ts.
Proof.
  unfold sound. rewrite !Forall_forall. split.
  - intros H. split; intros t Ht; now destruct (H t Ht).
  - intros [H1 H2] t Ht. split; [now apply H1 | now apply H2].
Qed.

Lemma handle_sound (e : event) (h : Home) :
  clock_ok e -> Forall sound (tasks h) ->
  Forall sound (tasks (next (handle e h))).
Proof.
  intros Hc H. apply Forall_sound in H. destruct H as [H1 H2].
  apply Forall_sound. split;
    [now apply handle_text_valid | now apply handle_representable].
Qed.

Lemma consistent_first_visit (w : World) :
  mount None = Some w -> consistent w.
Proof.
  simpl. intros H. injection H as <-. split; [constructor | now left].
Qed.

Lemma consistent_dispatch (e : event) (w : World) :
  clock_ok e -> consistent w -> consistent (dispatch e w).
Proof.
  intros Hc [Ht Hs].
  pose proof (handle_sound e (page w) Hc Ht) as Ht'.
  split; [exact Ht'|]. unfold dispatch. cbn [storage].
  destruct (storage_calls_cases e (page w)) as [[E _]|[[E _]|[E _]]];
    rewrite E; cbn [run_calls fold_left run_call].
  - exact Hs.
  - right. eexists. split; [reflexivity | exact Ht'].
  - now left.
Qed.

Lemma consistent_reload (w w' : World) :
  consistent w -> mount (storage w) = Some w' -> consistent w'.
Proof.
  intros [_ [Hs|[ts [Hs Hts]]]] Hm; rewrite Hs in Hm.
  - now apply consistent_first_visit.
  - assert (Hr : Forall representable ts) by (now apply Forall_sound in Hts).
    rewrite (mount_stringify ts Hr) in Hm. injection Hm as <-.
    split; [exact Hts|]. right. exists ts. split; [|exact Hts].
    cbn [storage]. destruct ts; reflexivity.
Qed.

(** Every world the page reaches is consistent. *)
Lemma reachable_consistent (w : World) : reachable w -> consistent w.
Proof.
  induction 1 as [w H | w e _ IH Hc | w w' _ IH Hm].
  - now apply consistent_first_visit.
  - now apply consistent_dispatch.
  - now apply (consistent_reload w).
Qed.

(** A reload never meets a slot the load effect cannot follow: what the
    page finds there is what it wrote. *)
Lemma reload_defined (w : World) :
  reachable w -> exists w', mount (storage w) = Some w'.
Proof.
  intros H. apply reachable_consistent in H.
  destruct H as [_ [Hs|[ts [Hs Hts]]]]; rewrite Hs.
  - eexists. reflexivity.
  - apply Forall_sound in Hts. destruct Hts as [_ Hr].
    rewrite (mount_stringify ts Hr). eexists. reflexivity.
Qed.

(** C8 (as the page has it). Text validity: in every state the page reaches
    from a first visit, where nothing is stored, through events and reloads,
    every task's text is a non-empty trimmed string. Every handler keeps the
    texts of a list valid, whatever the list: [addTask] and [saveEdit] store
    a trimmed text and reject one that trims to the empty string. The load
    effect checks no text: it gives back the list the page saved, text for
    text. *)
Theorem text_validity :
  (forall w, reachable w ->
     Forall (fun t => valid_text (text t)) (tasks (page w)))
  /\ (forall e h,
        Forall (fun t => valid_text (text t)) (tasks h) ->
        Forall (fun t => valid_text (text t)) (tasks (next (handle e h))))
  /\ (forall ts,
        Forall representable ts ->
        option_map (fun w => tasks (page w)) (mount (Some (JSON_stringify ts)))
        = Some ts).
Proof.
  repeat split.
  - intros w H. apply reachable_consistent in H. destruct H as [H _].
    now apply Forall_sound in H.
  - intros e h. apply handle_text_valid.
  - intros ts H. now rewrite (mount_stringify ts H).
Qed.

Lemma reachable_milk_world : reachable milk_world.
Proof.
  unfold milk_world.
  apply reach_event; [apply reach_event; [|exact I] | split; reflexivity].
  now apply reach_first_visit.
Defined.

Lemma text_validity_witness :
  reachable milk_world
  /\ Forall (fun t => valid_text (text t)) (tasks (page milk_world)).
Proof.
  split; [exact reachable_milk_world|].
  exact (proj1 text_validity milk_world reachable_milk_world).
Defined.

(** C8 (as claimed) fails at the load effect: a slot holding the text of a
    task whose text is two spaces is loaded as it is, and the list then has
    a task whose text is not valid. *)
Lemma load_keeps_blank_text :
  option_map (fun w => tasks (page w))
    (mount (Some (JSON_stringify [blank_task])))
  = Some [blank_task]
  /\ trim (text blank_task) = [].
Proof. split; reflexivity. Qed.


(** ** Loading and the slot *)

(** After a load that ran through, the slot holds the loaded list as the
    page writes it, unless the list is empty: the slot then stays as it
    was. *)
Lemma mount_persistence (c : N) (s : jsstring) (ts : list Task) :
  parseSaved (c :: s) = Returned ts ->
  option_map storage (mount (Some (c :: s)))
  = Some (match ts with
          | [] => Some (c :: s)
          | _ :: _ => Some (JSON_stringify ts)
          end).
Proof. intros H. unfold mount. rewrite H. now destruct ts. Qed.

(* ================================================================== *)
(** * Further properties: the slot and the list *)
(* ================================================================== *)

Lemma mirror_cons (t : Task) (ts : list Task) :
  mirror (t :: ts) = Some (JSON_stringify (t :: ts)).
Proof. reflexivity. Qed.

Lemma run_saveEffect (ts : list Task) (slot : option jsstring) :
  ts <> [] -> run_calls (saveEffect ts) slot = mirror ts.
Proof. destruct ts; [contradiction | reflexivity]. Qed.

(** An event leaves the slot mirroring the list if it found it so. *)
Lemma mirror_dispatch (e : event) (w : World) :
  storage w = mirror (tasks (page w)) ->
  storage (dispatch e w) = mirror (tasks (page (dispatch e w))).
Proof.
  intros H. unfold dispatch. cbn [storage page].
  assert (Hmap : forall f : Task -> Task,
            run_calls (saveEffect (map f (tasks (page w)))) (storage w)
            = mirror (map f (tasks (page w)))).
  { intros f. destruct (tasks (page w)) as [|t ts] eqn:E; [|reflexivity].
    now rewrite H. }
  destruct e; cbn [handle]; try exact H.
  - unfold addTask. destruct (is_empty (trim (inputValue (page w)))); [exact H|].
    unfold storage_calls. cbn [calls tasksSet next app tasks setTasks setInputValue].
    apply run_saveEffect. now destruct (tasks (page w)).
  - unfold toggleTask, storage_calls.
    cbn [calls tasksSet next app tasks setTasks]. apply Hmap.
  - unfold deleteTask, storage_calls.
    cbn [calls tasksSet next tasks setTasks].
    destruct (List.filter (fun task => negb (id task =? i)%Z) (tasks (page w)));
      reflexivity.
  - reflexivity.
  - unfold saveEdit. destruct (is_empty (trim (editingText (page w)))); [exact H|].
    unfold storage_calls.
    cbn [calls tasksSet next app tasks setTasks setEditingId setEditingText].
    apply Hmap.
Qed.

(** The slot mirrors the list in every world the page reaches from a first
    visit. *)
Lemma reachable_mirrored (w : World) :
  reachable w -> storage w = mirror (tasks (page w)).
Proof.
  intros Hr. pose proof (reachable_consistent w Hr) as Hc. revert Hc.
  induction Hr as [w H | w e Hr IH Hck | w w' Hr IH Hm]; intros Hc.
  - simpl in H. now injection H as <-.
  - apply mirror_dispatch, IH. now apply reachable_consistent.
  - pose proof (reachable_consistent w Hr) as [Hs _].
    specialize (IH (reachable_consistent w Hr)).
    rewrite IH in Hm. destruct (tasks (page w)) as [|t ts] eqn:E.
    + simpl in Hm. now injection Hm as <-.
    + apply Forall_sound in Hs. destruct Hs as [_ Hs].
      cbn [mirror] in Hm. rewrite (mount_stringify _ Hs) in Hm.
      now injection Hm as <-.
Qed.

(** Mounting over the mirror of a list shows the list. *)
Lemma mount_mirror (ts : list Task) :
  Forall representable ts ->
  mount (mirror ts)
  = Some {| page := setTasks ts initial; storage := mirror ts;
            console := [] |}.
Proof.
  intros H. destruct ts as [|t ts]; [reflexivity|].
  cbn [mirror]. now rewrite (mount_stringify _ H).
Qed.

Lemma reachable_representable (w : World) :
  reachable w -> Forall representable (tasks (page w)).
Proof.
  intros Hr. destruct (reachable_consistent w Hr) as [Hs _].
  now apply Forall_sound in Hs.
Qed.

(** X1. In every world the page reaches from a first visit, the slot
    mirrors the list: it holds the text of the list when the list is not
    empty, and it is absent exactly when the list is empty; it never holds
    the text of an empty list or of an older list. *)
Theorem slot_mirrors_list (w : World) :
  reachable w ->
  storage w = mirror (tasks (page w))
  /\ (storage w = None <-> tasks (page w) = []).
Proof.
  intros Hr. pose proof (reachable_mirrored w Hr) as H.
  split; [exact H|]. rewrite H.
  destruct (tasks (page w)); simpl; split; congruence.
Qed.

Lemma slot_mirrors_list_witness :
  reachable milk_world
  /\ storage milk_world = mirror (tasks (page milk_world)).
Proof.
  split; [exact reachable_milk_world|].
  exact (proj1 (slot_mirrors_list milk_world reachable_milk_world)).
Defined.

(** X2. Reloading the page in any world it reaches from a first visit
    brings back the list as it was, task for task; the slot stays as it is,
    nothing is reported, and the rest of the page starts afresh: empty
    input, filter "all", no edit session. *)
Theorem reload_restores_list (w : World) :
  reachable w ->
  mount (storage w)
  = Some {| page := setTasks (tasks (page w)) initial;
            storage := storage w; console := [] |}.
Proof.
  intros Hr. rewrite (reachable_mirrored w Hr).
  apply mount_mirror. now apply reachable_representable.
Qed.

Lemma reload_restores_list_witness :
  reachable two_task_world
  /\ option_map (fun w => tasks (page w)) (mount (storage two_task_world))
     = Some (tasks (page two_task_world)).
Proof.
  assert (H : reachable two_task_world).
  { unfold two_task_world.
    apply reach_event; [|exact I].
    apply reach_event; [|split; reflexivity].
    apply reach_event; [|exact I].
    exact reachable_milk_world. }
  split; [exact H|].
  now rewrite (reload_restores_list two_task_world H).
Defined.






(* ================================================================== *)
(** * Further properties: the handlers on the list *)
(* ================================================================== *)

(** ** Deleting *)

Lemma filter_idem {A : Type} (p : A -> bool) (l : list A) :
  List.filter p (List.filter p l) = List.filter p l.
Proof.
  induction l as [|x l IH]; simpl; [reflexivity|].
  destruct (p x) eqn:E; simpl; [rewrite E|]; now rewrite IH.
Qed.

Lemma filter_all {A : Type} (p : A -> bool) (l : list A) :
  (forall x, In x l -> p x = true) -> List.filter p l = l.
Proof.
  induction l as [|x l IH]; simpl; intros H; [reflexivity|].
  rewrite (H x) by now left. rewrite IH; [reflexivity|]. intros y Hy.
  apply H. now right.
Qed.

Lemma filter_split_length {A : Type} (p : A -> bool) (l : list A) :
  (List.length (List.filter (fun x => negb (p x)) l)
   + List.length (List.filter p l) = List.length l)%nat.
Proof.
  induction l as [|x l IH]; simpl; [reflexivity|].
  destruct (p x); simpl; lia.
Qed.

(** X4. [deleteTask] removes exactly the tasks with the given id: a task is
    in the list afterwards if and only if it was there with another id; the
    tasks that stay keep their order; no task has the id afterwards;
    deleting again changes nothing more; a list without the id stays as it
    was; and the list is shorter by the number of tasks that had the id. *)
Theorem deleteTask_removes_id (i : Z) (h : Home) :
  let after := tasks (next (deleteTask i h)) in
  (forall t, In t after <-> In t (tasks h) /\ id t <> i)
  /\ subsequence after (tasks h)
  /\ (forall t, In t after -> has_id i t = false)
  /\ tasks (next (deleteTask i (next (deleteTask i h)))) = after
  /\ ((forall t, In t (tasks h) -> has_id i t = false) -> after = tasks h)
  /\ (List.length after + List.length (List.filter (has_id i) (tasks h))
      = List.length (tasks h))%nat.
Proof.
  cbn [deleteTask next tasks setTasks].
  split.
  { intros t. rewrite filter_In, negb_true_iff, Z.eqb_neq. reflexivity. }
  split; [apply filter_subsequence|].
  split.
  { intros t Ht. apply filter_In in Ht. destruct Ht as [_ Ht].
    now apply negb_true_iff in Ht. }
  split; [apply filter_idem|].
  split.
  { intros Hno. apply filter_all. intros t Ht. apply negb_true_iff.
    exact (Hno t Ht). }
  apply (filter_split_length (has_id i)).
Qed.

(** ** Saving an edit *)

(** X5. [saveEdit] with a scratch text that does not trim to the empty
    string changes texts only: the list keeps its length and order, every
    task keeps its id, completed flag and creation date, the tasks with the
    given id get the trimmed scratch text and the others keep theirs. *)
Theorem saveEdit_rewrites_text (i : Z) (h : Home) :
  trim (editingText h) <> [] ->
  Forall2
    (fun t t' =>
       id t' = id t /\ completed t' = completed t
       /\ createdAt t' = createdAt t
       /\ text t' = if has_id i t then trim (editingText h) else text t)
    (tasks h) (tasks (next (saveEdit i h))).
Proof.
  intros H. unfold saveEdit. apply is_empty_false in H. rewrite H.
  cbn [next tasks setTasks setEditingId setEditingText].
  induction (tasks h) as [|t ts IH]; simpl; constructor; [|exact IH].
  unfold retext, has_id. destruct (id t =? i)%Z; simpl; auto.
Qed.

Lemma saveEdit_rewrites_text_witness :
  let h := setEditingText (lit " call Bob ") (setTasks three_tasks initial) in
  trim (editingText h) <> []
  /\ Forall2
       (fun t t' =>
          id t' = id t /\ completed t' = completed t
          /\ createdAt t' = createdAt t
          /\ text t' = if has_id 1700000000777 t then lit "call Bob"
                       else text t)
       (tasks h) (tasks (next (saveEdit 1700000000777 h))).
Proof.
  split; [discriminate|].
  exact (saveEdit_rewrites_text 1700000000777
           (setEditingText (lit " call Bob ") (setTasks three_tasks initial))
           ltac:(discriminate)).
Defined.

(** ** What no handler changes *)

Lemma subsequence_refl {A : Type} (l : list A) : subsequence l l.
Proof. induction l; constructor; assumption. Qed.

Lemma subsequence_nil {A : Type} (l : list A) : subsequence [] l.
Proof. induction l; constructor; assumption. Qed.

Lemma subsequence_map {A B : Type} (f : A -> B) (s l : list A) :
  subsequence s l -> subsequence (map f s) (map f l).
Proof. induction 1; simpl; constructor; assumption. Qed.

Lemma stamp_toggle (i : Z) (t : Task) : stamp (toggle i t) = stamp t.
Proof. unfold toggle, stamp. now destruct (id t =? i)%Z. Qed.

Lemma stamp_retext (i : Z) (s : jsstring) (t : Task) :
  stamp (retext i s t) = stamp t.
Proof. unfold retext, stamp. now destruct (id t =? i)%Z. Qed.

(** X6. No handler changes the id or the creation date of a task, or the
    order of the tasks. The ids and dates of the list, in order, stay as
    they are under every event, except that a delete or a clear keeps a
    subsequence of them and a submit may add one pair at the end: the two
    readings of the clock. *)
Theorem stamps_are_kept (e : event) (h : Home) :
  let before := map stamp (tasks h) in
  let after := map stamp (tasks (next (handle e h))) in
  match e with
  | Delete _ | ClearAll => subsequence after before
  | Submit now today =>
      after = if is_empty (trim (inputValue h)) then before
              else before ++ [(now, today)]
  | _ => after = before
  end.
Proof.
  destruct e; cbn [handle]; try reflexivity.
  - unfold addTask. destruct (is_empty (trim (inputValue h))); [reflexivity|].
    cbn [next tasks setTasks setInputValue]. now rewrite map_app.
  - cbn [toggleTask next tasks setTasks]. rewrite map_map.
    apply map_ext. intros t. apply stamp_toggle.
  - cbn [deleteTask next tasks setTasks]. apply subsequence_map.
    apply filter_subsequence.
  - apply subsequence_nil.
  - unfold saveEdit. destruct (is_empty (trim (editingText h))); [reflexivity|].
    cbn [next tasks setTasks setEditingId setEditingText]. rewrite map_map.
    apply map_ext. intros t. apply stamp_retext.
Qed.

(** ** The counts *)

Lemma filter_app_length {A : Type} (p : A -> bool) (l m : list A) :
  List.length (List.filter p (l ++ m))
  = (List.length (List.filter p l) + List.length (List.filter p m))%nat.
Proof. now rewrite filter_app, length_app. Qed.

Lemma filter_map_same {A : Type} (p : A -> bool) (f : A -> A) (l : list A) :
  (forall x, p (f x) = p x) ->
  List.filter p (map f l) = map f (List.filter p l).
Proof.
  intros H. induction l as [|x l IH]; simpl; [reflexivity|].
  rewrite H. destruct (p x); simpl; now rewrite IH.
Qed.

Lemma filter_filter_length {A : Type} (p q : A -> bool) (l : list A) :
  (List.length (List.filter p (List.filter q l))
   <= List.length (List.filter p l))%nat.
Proof.
  induction l as [|x l IH]; simpl; [lia|].
  destruct (p x) eqn:Ep, (q x); simpl; rewrite ?Ep; simpl; lia.
Qed.

Lemma completed_retext (i : Z) (s : jsstring) (t : Task) :
  completed (retext i s t) = completed t.
Proof. unfold retext. now destruct (id t =? i)%Z. Qed.

(** X7. How the counts shown in the statistics move. A submit that adds a
    task raises the active count by one and leaves the completed count; a
    submit of blank input, an edit and everything that does not touch the
    list leave both counts; a toggle keeps their sum; a delete raises
    neither; a clear sets both to zero. *)
Theorem counts_follow_events (e : event) (h : Home) :
  let h' := next (handle e h) in
  match e with
  | Submit _ _ =>
      if is_empty (trim (inputValue h))
      then activeCount h' = activeCount h
           /\ completedCount h' = completedCount h
      else activeCount h' = S (activeCount h)
           /\ completedCount h' = completedCount h
  | Toggle _ =>
      (activeCount h' + completedCount h'
       = activeCount h + completedCount h)%nat
  | Delete _ =>
      (activeCount h' <= activeCount h)%nat
      /\ (completedCount h' <= completedCount h)%nat
  | ClearAll => activeCount h' = O /\ completedCount h' = O
  | _ =>
      activeCount h' = activeCount h /\ completedCount h' = completedCount h
  end.
Proof.
  unfold activeCount, completedCount.
  destruct e; cbn [handle]; try (split; reflexivity).
  - unfold addTask. destruct (is_empty (trim (inputValue h)));
      [split; reflexivity|].
    cbn [next tasks setTasks setInputValue]. rewrite !filter_app_length.
    simpl. lia.
  - cbn [toggleTask next tasks setTasks].
    pose proof (filter_split_length (fun task => completed task)
                  (map (toggle i) (tasks h))).
    pose proof (filter_split_length (fun task => completed task) (tasks h)).
    rewrite length_map in *. lia.
  - cbn [deleteTask next tasks setTasks]. split; apply filter_filter_length.
  - unfold saveEdit. destruct (is_empty (trim (editingText h)));
      [split; reflexivity|].
    cbn [next tasks setTasks setEditingId setEditingText].
    rewrite !filter_map_same, !length_map; [split; reflexivity | |];
      intros t; now rewrite completed_retext.
Qed.

Lemma map_toggle_split (i : Z) (l1 l2 : list Task) (t : Task) :
  id t = i -> ~ In i (map id l1) -> ~ In i (map id l2) ->
  map (toggle i) (l1 ++ t :: l2)
  = l1 ++ {| id := id t; text := text t; completed := negb (completed t);
             createdAt := createdAt t |} :: l2.
Proof.
  intros Hi H1 H2. rewrite map_app. cbn [map].
  rewrite !toggle_other by assumption.
  unfold toggle. now rewrite Hi, Z.eqb_refl.
Qed.

(** X8. When ids are distinct, toggling a task of the list moves exactly
    one task from one count to the other: completing an active task lowers
    the active count by one and raises the completed count by one, and the
    other way round. *)
Theorem toggle_moves_one (h : Home) (n : nat) (task : Task) :
  NoDup (map id (tasks h)) ->
  nth_error (tasks h) n = Some task ->
  let h' := next (toggleTask (id task) h) in
  if completed task
  then activeCount h' = S (activeCount h)
       /\ S (completedCount h') = completedCount h
  else S (activeCount h') = activeCount h
       /\ completedCount h' = S (completedCount h).
Proof.
  intros Hnd Hn. cbn [toggleTask next tasks setTasks].
  unfold activeCount, completedCount. cbn [tasks setTasks].
  destruct (nth_error_split _ _ Hn) as (l1 & l2 & E & _).
  rewrite E in *. rewrite map_app in Hnd. cbn [map] in Hnd.
  assert (H1 : ~ In (id task) (map id l1)).
  { intros Hin. apply NoDup_remove_2 in Hnd. apply Hnd.
    apply in_or_app. now left. }
  assert (H2 : ~ In (id task) (map id l2)).
  { intros Hin. apply NoDup_remove_2 in Hnd. apply Hnd.
    apply in_or_app. now right. }
  rewrite (map_toggle_split _ _ _ _ eq_refl H1 H2).
  rewrite !filter_app_length. cbn [List.filter completed].
  destruct (completed task); cbn [negb List.length]; lia.
Qed.

Lemma toggle_moves_one_witness :
  let h := page two_task_world in
  NoDup (map id (tasks h))
  /\ nth_error (tasks h) 1
     = Some {| id := 1700000000500; text := lit "call Ann";
               completed := false; createdAt := 1700000000501 |}
  /\ S (activeCount (next (toggleTask 1700000000500 h))) = activeCount h
  /\ completedCount (next (toggleTask 1700000000500 h))
     = S (completedCount h).
Proof.
  assert (Hnd : NoDup (map id (tasks (page two_task_world)))).
  { repeat constructor; simpl; intuition discriminate. }
  split; [exact Hnd|]. split; [reflexivity|].
  exact (toggle_moves_one (page two_task_world) 1
           {| id := 1700000000500; text := lit "call Ann";
              completed := false; createdAt := 1700000000501 |}
           Hnd eq_refl).
Defined.

(** ** How the handlers compose *)

Lemma toggle_toggle_comm (i j : Z) (t : Task) :
  toggle i (toggle j t) = toggle j (toggle i t).
Proof.
  unfold toggle.
  destruct (id t =? j)%Z eqn:Ej; destruct (id t =? i)%Z eqn:Ei;
    cbn [id]; rewrite ?Ei, ?Ej; reflexivity.
Qed.

Lemma id_toggle (i : Z) (t : Task) : id (toggle i t) = id t.
Proof. unfold toggle. now destruct (id t =? i)%Z. Qed.

Lemma id_retext (i : Z) (s : jsstring) (t : Task) : id (retext i s t) = id t.
Proof. unfold retext. now destruct (id t =? i)%Z. Qed.

Lemma filter_comm {A : Type} (p q : A -> bool) (l : list A) :
  List.filter p (List.filter q l) = List.filter q (List.filter p l).
Proof.
  induction l as [|x l IH]; simpl; [reflexivity|].
  destruct (p x) eqn:Ep, (q x) eqn:Eq; simpl; rewrite ?Ep, ?Eq, IH;
    reflexivity.
Qed.

(** X9. The order of toggles and deletes does not matter for the list: two
    toggles commute, two deletes commute, and a toggle commutes with a
    delete, whatever the ids. Toggling or editing a task and then deleting
    it leaves the same list as deleting it at once. *)
Theorem toggles_and_deletes_commute (i j : Z) (h : Home) :
  tasks (next (toggleTask i (next (toggleTask j h))))
  = tasks (next (toggleTask j (next (toggleTask i h))))
  /\ tasks (next (deleteTask i (next (deleteTask j h))))
     = tasks (next (deleteTask j (next (deleteTask i h))))
  /\ tasks (next (deleteTask i (next (toggleTask j h))))
     = tasks (next (toggleTask j (next (deleteTask i h))))
  /\ tasks (next (deleteTask i (next (toggleTask i h))))
     = tasks (next (deleteTask i h))
  /\ tasks (next (deleteTask i (next (saveEdit i h))))
     = tasks (next (deleteTask i h)).
Proof.
  cbn [toggleTask deleteTask next tasks setTasks].
  split.
  { rewrite !map_map. apply map_ext. intros t. apply toggle_toggle_comm. }
  split; [apply filter_comm|].
  assert (Hmap : forall k,
            List.filter (fun task => negb (id task =? i)%Z)
              (map (toggle k) (tasks h))
            = map (toggle k)
                (List.filter (fun task => negb (id task =? i)%Z) (tasks h))).
  { intros k. apply filter_map_same. intros t. now rewrite id_toggle. }
  split; [apply Hmap|].
  split.
  { rewrite Hmap. apply toggle_other. intros Hin.
    apply in_map_iff in Hin. destruct Hin as (t & Ht & Hin).
    apply filter_In in Hin. destruct Hin as [_ Hin].
    apply negb_true_iff in Hin. apply Z.eqb_neq in Hin. contradiction. }
  unfold saveEdit. destruct (is_empty (trim (editingText h))); [reflexivity|].
  cbn [next tasks setTasks setEditingId setEditingText].
  rewrite filter_map_same by (intros t; now rewrite id_retext).
  apply retext_other. intros Hin.
  apply in_map_iff in Hin. destruct Hin as (t & Ht & Hin).
  apply filter_In in Hin. destruct Hin as [_ Hin].
  apply negb_true_iff in Hin. apply Z.eqb_neq in Hin. contradiction.
Qed.

(** X10. Adding and deleting undo each other: in any world the page reaches
    from a first visit, a submit whose clock reading is the id of no task,
    followed by the delete of that id, leaves the list and the slot as they
    were before the submit. *)
Theorem submit_then_delete (w : World) (input : jsstring) (now today : Z) :
  reachable w ->
  (forall t, In t (tasks (page w)) -> has_id now t = false) ->
  let w' := dispatch (Delete now)
              (dispatch (Submit now today) (dispatch (TypeInput input) w)) in
  tasks (page w') = tasks (page w) /\ storage w' = storage w.
Proof.
  intros Hr Hfresh.
  pose proof (reachable_mirrored w Hr) as Hm.
  assert (Hkeep : List.filter (fun task => negb (id task =? now)%Z)
                    (tasks (page w)) = tasks (page w)).
  { apply filter_all. intros t Ht. apply negb_true_iff. exact (Hfresh t Ht). }
  assert (Ht : tasks (page (dispatch (Delete now)
                 (dispatch (Submit now today) (dispatch (TypeInput input) w))))
               = tasks (page w)).
  { cbn [dispatch page handle unchanged next deleteTask tasks setTasks].
    unfold addTask. cbn [inputValue setInputValue].
    destruct (is_empty (trim input)).
    - cbn [unchanged next tasks setInputValue]. exact Hkeep.
    - cbn [next tasks setTasks setInputValue]. rewrite filter_app, Hkeep.
      cbn [List.filter id]. rewrite Z.eqb_refl. cbn [negb].
      apply app_nil_r. }
  cbv zeta. split; [exact Ht|].
  rewrite Hm, <- Ht.
  set (w1 := dispatch (Submit now today) (dispatch (TypeInput input) w)).
  unfold dispatch at 1 2. cbn [storage page handle].
  unfold deleteTask, storage_calls. cbn [calls tasksSet next tasks setTasks].
  destruct (List.filter (fun task => negb (id task =? now)%Z)
              (tasks (page w1))); reflexivity.
Qed.

Lemma submit_then_delete_witness :
  reachable milk_world
  /\ (forall t, In t (tasks (page milk_world)) -> has_id 1700000009999 t = false)
  /\ storage (dispatch (Delete 1700000009999)
                (dispatch (Submit 1700000009999 1700000009999)
                   (dispatch (TypeInput (lit "x")) milk_world)))
     = storage milk_world.
Proof.
  assert (Hf : forall t, In t (tasks (page milk_world)) ->
                         has_id 1700000009999 t = false).
  { intros t [<-|[]]. reflexivity. }
  split; [exact reachable_milk_world|]. split; [exact Hf|].
  exact (proj2 (submit_then_delete milk_world (lit "x") 1700000009999
                  1700000009999 reachable_milk_world Hf)).
Defined.

(* ================================================================== *)
(** * Further properties: ids while the clock is ahead *)
(* ================================================================== *)

Lemma reachable_ticking_reachable (w : World) :
  reachable_ticking w -> reachable w.
Proof.
  induction 1 as [w H | w e _ IH Hc _ | w w' _ IH Hm].
  - now apply reach_first_visit.
  - now apply reach_event.
  - now apply (reach_reload w).
Qed.

Lemma StronglySorted_snoc (l : list Z) (x : Z) :
  StronglySorted Z.lt l -> Forall (fun y => (y < x)%Z) l ->
  StronglySorted Z.lt (l ++ [x]).
Proof.
  induction 1 as [|y l Hs IH Hy]; intros Hx; simpl.
  - repeat constructor.
  - inversion Hx as [|? ? Hyx Hlx]; subst. constructor; [now apply IH|].
    apply Forall_app. split; [exact Hy | now repeat constructor].
Qed.

Lemma StronglySorted_map_filter (p : Task -> bool) (l : list Task) :
  StronglySorted Z.lt (map id l) ->
  StronglySorted Z.lt (map id (List.filter p l)).
Proof.
  induction l as [|t l IH]; simpl; intros H; [exact H|].
  inversion H as [|? ? Hs Ht]; subst.
  destruct (p t); simpl; [|now apply IH].
  constructor; [now apply IH|].
  rewrite Forall_forall in *. intros y Hy. apply Ht.
  apply in_map_iff in Hy. destruct Hy as (u & <- & Hu).
  apply filter_In in Hu. apply in_map. tauto.
Qed.

Lemma StronglySorted_lt_NoDup (l : list Z) :
  StronglySorted Z.lt l -> NoDup l.
Proof.
  induction 1 as [|x l Hs IH Hx]; constructor; [|exact IH].
  intros Hin. rewrite Forall_forall in Hx. specialize (Hx x Hin). lia.
Qed.

Lemma sorted_step (e : event) (h : Home) :
  clock_ahead e h ->
  StronglySorted Z.lt (map id (tasks h)) ->
  StronglySorted Z.lt (map id (tasks (next (handle e h)))).
Proof.
  intros Ha H. destruct e; cbn [handle]; try exact H.
  - unfold addTask. destruct (is_empty (trim (inputValue h))); [exact H|].
    cbn [next tasks setTasks setInputValue]. rewrite map_app.
    apply StronglySorted_snoc; [exact H|].
    cbn [clock_ahead] in Ha. rewrite Forall_forall in *.
    intros y Hy. apply in_map_iff in Hy. destruct Hy as (t & <- & Ht).
    now apply Ha.
  - cbn [toggleTask next tasks setTasks]. now rewrite map_id_toggle.
  - cbn [deleteTask next tasks setTasks]. now apply StronglySorted_map_filter.
  - constructor.
  - unfold saveEdit. destruct (is_empty (trim (editingText h))); [exact H|].
    cbn [next tasks setTasks setEditingId setEditingText].
    now rewrite map_id_retext.
Qed.

Lemma ticking_sorted (w : World) :
  reachable_ticking w -> StronglySorted Z.lt (map id (tasks (page w))).
Proof.
  induction 1 as [w H | w e Hr IH Hc Ha | w w' Hr IH Hm].
  - simpl in H. injection H as <-. constructor.
  - now apply sorted_step.
  - apply reachable_ticking_reachable in Hr.
    rewrite (reachable_mirrored w Hr) in Hm.
    rewrite (mount_mirror _ (reachable_representable w Hr)) in Hm.
    now injection Hm as <-.
Qed.

(** X11. While the clock is ahead of the list at every submit (it reads a
    value greater than every id in the list), in every world the page
    reaches from a first visit, reloads included, the ids of the list
    increase strictly from the first task to the last: the list is in the
    order of its ids, and no two tasks have the same id. *)
Theorem ids_increase_while_clock_ahead (w : World) :
  reachable_ticking w ->
  StronglySorted Z.lt (map id (tasks (page w)))
  /\ NoDup (map id (tasks (page w))).
Proof.
  intros H. apply ticking_sorted in H. split; [exact H|].
  now apply StronglySorted_lt_NoDup.
Qed.

Lemma reachable_ticking_two_task_world : reachable_ticking two_task_world.
Proof.
  unfold two_task_world, milk_world.
  apply tick_event; [|exact I|exact I].
  apply tick_event; [|split; reflexivity|].
  - apply tick_event; [|exact I|exact I].
    apply tick_event; [|split; reflexivity|constructor].
    apply tick_event; [|exact I|exact I].
    now apply tick_first_visit.
  - repeat constructor.
Defined.

Lemma ids_increase_while_clock_ahead_witness :
  reachable_ticking two_task_world
  /\ map id (tasks (page two_task_world))
     = [1700000000000%Z; 1700000000500%Z]
  /\ NoDup (map id (tasks (page two_task_world))).
Proof.
  split; [exact reachable_ticking_two_task_world|].
  split; [reflexivity|].
  exact (proj2 (ids_increase_while_clock_ahead two_task_world
                  reachable_ticking_two_task_world)).
Defined.

(* ================================================================== *)
(** * Further properties: what the page shows *)
(* ================================================================== *)

Lemma length_zero_iff (A : Type) (l : list A) :
  (List.length l =? 0)%nat = true <-> l = [].
Proof. destruct l; simpl; split; congruence. Qed.

Lemma filter_nil_iff {A : Type} (p : A -> bool) (l : list A) :
  List.filter p l = [] <-> Forall (fun x => p x = false) l.
Proof.
  induction l as [|x l IH]; simpl.
  - split; constructor.
  - destruct (p x) eqn:E; split; intros H.
    + discriminate.
    + inversion H; congruence.
    + constructor; [exact E | now apply IH].
    + inversion H; now apply IH.
Qed.

(** X12. What the list area shows, and why. It shows a notice exactly when
    no task passes the filter. The notice invites to add a task exactly
    when the list is empty; otherwise it names the filter, which then is
    not "all": under "active" every task of the list is completed, under
    "completed" none is. When some task passes the filter the area shows
    one row for each task that passes, in the order of the list; under
    "all" these are all the tasks. *)
Theorem list_area_tells_why (h : Home) :
  match renderTaskList h with
  | Notice message =>
      filteredTasks h = []
      /\ ((tasks h = []
           /\ message = lit "No tasks yet. Add one above to get started!")
          \/ (tasks h <> []
              /\ message
                 = lit "No " ++ FilterType_text (filter h)
                   ++ lit " tasks found."
              /\ match filter h with
                 | All => False
                 | Active => Forall (fun t => completed t = true) (tasks h)
                 | Completed =>
                     Forall (fun t => completed t = false) (tasks h)
                 end))
  | Rows rows =>
      rows <> []
      /\ map row_task rows = filteredTasks h
      /\ (filter h = All -> map row_task rows = tasks h)
  end.
Proof.
  unfold renderTaskList.
  destruct (List.length (filteredTasks h) =? 0)%nat eqn:E.
  - apply length_zero_iff in E. split; [exact E|].
    destruct (List.length (tasks h) =? 0)%nat eqn:E'.
    + left. apply length_zero_iff in E'. now split.
    + right. split; [intros H; now rewrite H in E'|]. split; [reflexivity|].
      unfold filteredTasks in E. destruct (filter h).
      * rewrite filter_true in E. now rewrite E in E'.
      * apply filter_nil_iff in E. rewrite Forall_forall in *.
        intros t Ht. specialize (E t Ht). now apply negb_false_iff in E.
      * now apply filter_nil_iff in E.
  - assert (Hrows : map row_task (map (renderRow h) (filteredTasks h))
                    = filteredTasks h).
    { rewrite map_map. rewrite <- (map_id (filteredTasks h)) at 2.
      apply map_ext. intros t. unfold renderRow.
      now destruct (is_editing h t). }
    split.
    + intros H. apply map_eq_nil in H. now rewrite H in E.
    + split; [exact Hrows|]. intros Hall. rewrite Hrows.
      unfold filteredTasks. rewrite Hall. apply filter_true.
Qed.

Lemma rows_of (h : Home) (rows : list Row) :
  renderTaskList h = Rows rows -> rows = map (renderRow h) (filteredTasks h).
Proof.
  unfold renderTaskList.
  destruct (List.length (filteredTasks h) =? 0)%nat; [discriminate|].
  intros H. now injection H as <-.
Qed.

Lemma In_filteredTasks (h : Home) (t : Task) :
  In t (filteredTasks h) -> In t (tasks h).
Proof. unfold filteredTasks. intros H. now apply filter_In in H. Qed.

Lemma is_editing_spec (h : Home) (t : Task) :
  is_editing h t = true <-> editingId h = Some (id t).
Proof.
  unfold is_editing. destruct (editingId h) as [i|].
  - rewrite Z.eqb_eq. split; congruence.
  - split; discriminate.
Qed.

(** What a row that offers an event is. *)
Lemma offers_row (h : Home) (e : event) :
  match e with
  | TypeInput _ | Submit _ _ | PickFilter _ | ClearAll => True
  | _ =>
      offers h e ->
      exists t, In t (filteredTasks h)
                /\ row_offers (renderRow h t) e
  end.
Proof.
  destruct e; try exact I; unfold offers;
    destruct (renderTaskList h) as [m|rows] eqn:E; try contradiction;
    apply rows_of in E; subst rows; intros (r & Hr & Ho);
    apply in_map_iff in Hr; destruct Hr as (t & <- & Ht); eauto.
Qed.


Lemma editing_rows_count (h : Home) (l : list Task) :
  NoDup (map id l) ->
  (List.length (List.filter is_editing_row (map (renderRow h) l)) <= 1)%nat.
Proof.
  induction l as [|t l IH]; simpl; intros Hnd; [lia|].
  inversion Hnd as [|? ? Hnot Hnd']; subst. specialize (IH Hnd').
  unfold renderRow at 1. destruct (is_editing h t) eqn:E; simpl; [|lia].
  assert (Hnone : List.filter is_editing_row (map (renderRow h) l) = []).
  { apply filter_nil_iff. rewrite Forall_forall. intros r Hr.
    apply in_map_iff in Hr. destruct Hr as (u & <- & Hu).
    unfold renderRow. destruct (is_editing h u) eqn:Eu; [|reflexivity].
    exfalso. apply Hnot. apply is_editing_spec in E.
    apply is_editing_spec in Eu. assert (id u = id t) by congruence.
    rewrite <- H. now apply in_map. }
  rewrite Hnone. simpl. lia.
Qed.

(** X14. When ids are distinct the page shows at most one editing row; an
    editing row always shows the scratch text and belongs to a task of the
    list whose id is the one of the edit session. *)
Theorem one_editing_row (h : Home) (rows : list Row) :
  NoDup (map id (tasks h)) ->
  renderTaskList h = Rows rows ->
  (List.length (List.filter is_editing_row rows) <= 1)%nat
  /\ (forall t v, In (EditingRow t v) rows ->
        v = editingText h /\ editingId h = Some (id t) /\ In t (tasks h)).
Proof.
  intros Hnd Hr. apply rows_of in Hr. subst rows. split.
  - apply editing_rows_count. unfold filteredTasks.
    now apply NoDup_map_filter.
  - intros t v Hin. apply in_map_iff in Hin. destruct Hin as (u & Hu & Hin).
    unfold renderRow in Hu. destruct (is_editing h u) eqn:E; [|discriminate].
    injection Hu as <- <-. split; [reflexivity|].
    split; [now apply is_editing_spec | now apply In_filteredTasks].
Qed.

Lemma one_editing_row_witness :
  let h := next (startEditing 1700000000500 (lit "call Ann")
                   (page two_task_world)) in
  NoDup (map id (tasks h))
  /\ renderTaskList h
     = Rows [ PlainRow {| id := 1700000000000; text := lit "buy milk";
                          completed := true; createdAt := 1700000000001 |};
              EditingRow {| id := 1700000000500; text := lit "call Ann";
                            completed := false;
                            createdAt := 1700000000501 |}
                (lit "call Ann") ]
  /\ (List.length
        (List.filter is_editing_row
           [ PlainRow {| id := 1700000000000; text := lit "buy milk";
                         completed := true; createdAt := 1700000000001 |};
             EditingRow {| id := 1700000000500; text := lit "call Ann";
                           completed := false;
                           createdAt := 1700000000501 |}
               (lit "call Ann") ]) <= 1)%nat.
Proof.
  assert (Hnd : NoDup (map id (tasks (page two_task_world)))).
  { repeat constructor; simpl; intuition discriminate. }
  split; [exact Hnd|]. split; [reflexivity|].
  exact (proj1 (one_editing_row
                  (next (startEditing 1700000000500 (lit "call Ann")
                           (page two_task_world)))
                  _ Hnd eq_refl)).
Defined.

(** X15. Edit, then Save, changes nothing: in any world the page reaches
    from a first visit while the clock stays ahead of the list, pressing
    Edit on a row the page shows and saving at once leaves the list and the
    slot as they were, and the edit session closed. *)
Theorem edit_then_save_changes_nothing (w : World) (i : Z) (s : jsstring) :
  reachable_ticking w ->
  offers (page w) (StartEditing i s) ->
  let w' := dispatch (SaveEdit i) (dispatch (StartEditing i s) w) in
  tasks (page w') = tasks (page w)
  /\ storage w' = storage w
  /\ editingId (page w') = None /\ editingText (page w') = [].
Proof.
  intros Hr Ho.
  pose proof (ticking_sorted w Hr) as Hs.
  apply StronglySorted_lt_NoDup in Hs.
  apply reachable_ticking_reachable in Hr.
  pose proof (reachable_mirrored w Hr) as Hm.
  destruct (reachable_consistent w Hr) as [Hc _].
  destruct (offers_row (page w) (StartEditing i s) Ho) as (t & Ht & Hrow).
  apply In_filteredTasks in Ht.
  assert (Hw : i = id t /\ s = text t).
  { revert Hrow. unfold renderRow. now destruct (is_editing (page w) t). }
  destruct Hw as [-> ->].
  rewrite Forall_forall in Hc. destruct (Hc t Ht) as [[Hne Htrim] _].
  destruct (In_nth_error _ _ Ht) as [n Hn].
  assert (Hlist : map (retext (id t) (text t)) (tasks (page w))
                  = tasks (page w)).
  { rewrite <- (map_id (tasks (page w))) at 2. apply map_ext_in.
    intros u Hu. destruct (Z.eq_dec (id u) (id t)) as [E|E].
    - rewrite (NoDup_map_id_eq _ _ _ _ Hs Hn Hu E). now apply retext_same.
    - now apply retext_other_id. }
  cbv zeta. unfold dispatch.
  cbn [page storage handle startEditing next calls tasksSet].
  unfold saveEdit.
  cbn [editingText setEditingText setEditingId tasks].
  rewrite Htrim. apply is_empty_false in Hne. rewrite Hne.
  unfold storage_calls.
  cbn [next tasks setTasks setEditingText setEditingId calls tasksSet
       editingId editingText app].
  rewrite Hlist. repeat split.
  rewrite Hm. destruct (tasks (page w)) as [|u us]; [contradiction|].
  reflexivity.
Qed.

Lemma edit_then_save_changes_nothing_witness :
  reachable_ticking two_task_world
  /\ offers (page two_task_world)
       (StartEditing 1700000000500 (lit "call Ann"))
  /\ storage (dispatch (SaveEdit 1700000000500)
                (dispatch (StartEditing 1700000000500 (lit "call Ann"))
                   two_task_world))
     = storage two_task_world.
Proof.
  assert (Ho : offers (page two_task_world)
                 (StartEditing 1700000000500 (lit "call Ann"))).
  { eexists. split; [right; left; reflexivity|]. split; reflexivity. }
  split; [exact reachable_ticking_two_task_world|]. split; [exact Ho|].
  exact (proj1 (proj2 (edit_then_save_changes_nothing two_task_world
                         1700000000500 (lit "call Ann")
                         reachable_ticking_two_task_world Ho))).
Defined.

(* ================================================================== *)
(** * Further properties: the text a task gets *)
(* ================================================================== *)

Lemma trimStart_split (s : jsstring) :
  exists ws, s = ws ++ trimStart s /\ forallb is_white_space ws = true.
Proof.
  induction s as [|c s (ws & E & H)]; simpl; [now exists []|].
  destruct (is_white_space c) eqn:Ec.
  - exists (c :: ws). simpl. rewrite Ec, H. now rewrite <- E.
  - now exists [].
Qed.

Lemma forallb_rev {A : Type} (p : A -> bool) (l : list A) :
  forallb p (rev l) = forallb p l.
Proof.
  induction l as [|x l IH]; simpl; [reflexivity|].
  rewrite forallb_app, IH. simpl. rewrite andb_true_r. apply andb_comm.
Qed.

Lemma trim_split (s : jsstring) :
  exists lead trail,
    s = lead ++ trim s ++ trail
    /\ forallb is_white_space lead = true
    /\ forallb is_white_space trail = true
    /\ starts_clean (trim s) /\ starts_clean (rev (trim s)).
Proof.
  destruct (trimStart_split s) as (lead & E1 & H1).
  destruct (trimStart_split (rev (trimStart s))) as (tr & E2 & H2).
  exists lead, (rev tr). unfold trim, trimEnd. repeat split.
  - rewrite E1 at 1. f_equal. rewrite <- rev_app_distr, <- E2.
    now rewrite rev_involutive.
  - exact H1.
  - now rewrite forallb_rev.
  - apply (trimEnd_clean (trimStart s)), trimStart_clean.
  - rewrite rev_involutive. apply trimStart_clean.
Qed.

(** X16. The text [addTask] stores is the input without the white space at
    its two ends, and nothing else is taken away: the input is some white
    space, then the stored text, then some white space, and the stored text
    neither starts nor ends with white space. What is inside the text,
    white space included, is kept. [saveEdit] stores the scratch text in
    the same way. *)
Theorem stored_text_is_the_trimmed_input (now today : Z) (h : Home) :
  trim (inputValue h) <> [] ->
  exists task lead trail,
    tasks (next (addTask now today h)) = tasks h ++ [task]
    /\ inputValue h = lead ++ text task ++ trail
    /\ forallb is_white_space lead = true
    /\ forallb is_white_space trail = true
    /\ starts_clean (text task) /\ starts_clean (rev (text task)).
Proof.
  intros H. destruct (trim_split (inputValue h)) as (lead & trail & Hs).
  exists {| id := now; text := trim (inputValue h); completed := false;
            createdAt := today |}, lead, trail.
  split; [|exact Hs]. unfold addTask. apply is_empty_false in H.
  now rewrite H.
Qed.

Lemma stored_text_is_the_trimmed_input_witness :
  trim (inputValue (setInputValue (lit "  buy  milk ") initial)) <> []
  /\ exists task lead trail,
       tasks (next (addTask 1 2 (setInputValue (lit "  buy  milk ") initial)))
       = tasks (setInputValue (lit "  buy  milk ") initial) ++ [task]
       /\ inputValue (setInputValue (lit "  buy  milk ") initial)
          = lead ++ text task ++ trail
       /\ forallb is_white_space lead = true
       /\ forallb is_white_space trail = true
       /\ starts_clean (text task) /\ starts_clean (rev (text task)).
Proof.
  split; [discriminate|].
  exact (stored_text_is_the_trimmed_input 1 2
           (setInputValue (lit "  buy  milk ") initial)
           ltac:(discriminate)).
Defined.

(* ================================================================== *)
(** * Further properties: the filter and the slot in use *)
(* ================================================================== *)

Lemma filter_without_id (p : Task -> bool) (i : Z) (l : list Task) :
  ~ In i (map id l) ->
  List.filter (fun u => negb (has_id i u)) (List.filter p l)
  = List.filter p l.
Proof.
  intros H. apply filter_all. intros u Hu. apply filter_In in Hu.
  destruct Hu as [Hu _]. apply negb_true_iff. unfold has_id.
  apply Z.eqb_neq. intros E. apply H. rewrite <- E. now apply in_map.
Qed.

(** X17. Ticking a row off the view: when ids are distinct and the filter
    is "active" or "completed", toggling a task that the view shows takes
    exactly that task out of the view; the other rows stay, in their
    order. *)
Theorem toggle_takes_the_row_out (h : Home) (task : Task) :
  NoDup (map id (tasks h)) ->
  filter h <> All ->
  In task (filteredTasks h) ->
  filteredTasks (next (toggleTask (id task) h))
  = List.filter (fun u => negb (has_id (id task) u)) (filteredTasks h).
Proof.
  intros Hnd Hf Hin. unfold filteredTasks in *.
  cbn [toggleTask next tasks setTasks filter].
  apply filter_In in Hin. destruct Hin as [Hin Hp].
  destruct (In_nth_error _ _ Hin) as [n Hn].
  destruct (nth_error_split _ _ Hn) as (l1 & l2 & E & _).
  rewrite E in *. rewrite map_app in Hnd. cbn [map] in Hnd.
  assert (H1 : ~ In (id task) (map id l1)).
  { intros H. apply NoDup_remove_2 in Hnd. apply Hnd.
    apply in_or_app. now left. }
  assert (H2 : ~ In (id task) (map id l2)).
  { intros H. apply NoDup_remove_2 in Hnd. apply Hnd.
    apply in_or_app. now right. }
  rewrite (map_toggle_split _ _ _ _ eq_refl H1 H2).
  assert (Hq : forall p : Task -> bool,
            p task = true ->
            List.filter (fun u => negb (has_id (id task) u))
              (List.filter p (l1 ++ task :: l2))
            = List.filter p l1 ++ List.filter p l2).
  { intros p Hpt. rewrite !filter_app. cbn [List.filter]. rewrite Hpt.
    cbn [List.filter]. unfold has_id at 2. rewrite Z.eqb_refl. cbn [negb].
    now rewrite !filter_without_id. }
  rewrite (Hq _ Hp). rewrite filter_app. cbn [List.filter completed].
  destruct (filter h); [contradiction| |].
  - apply negb_true_iff in Hp. now rewrite Hp.
  - now rewrite Hp.
Qed.

Lemma toggle_takes_the_row_out_witness :
  NoDup (map id (tasks (setFilter Active (setTasks three_tasks initial))))
  /\ filter (setFilter Active (setTasks three_tasks initial)) <> All
  /\ In {| id := 1700000000000; text := lit "buy milk"; completed := false;
           createdAt := 1700000000000 |}
        (filteredTasks (setFilter Active (setTasks three_tasks initial)))
  /\ filteredTasks
       (next (toggleTask 1700000000000
                (setFilter Active (setTasks three_tasks initial))))
     = List.filter (fun u => negb (has_id 1700000000000 u))
         (filteredTasks (setFilter Active (setTasks three_tasks initial))).
Proof.
  assert (Hnd : NoDup (map id (tasks (setFilter Active
                                       (setTasks three_tasks initial))))).
  { repeat constructor; simpl; intuition discriminate. }
  assert (Hf : filter (setFilter Active (setTasks three_tasks initial)) <> All)
    by discriminate.
  assert (Hin : In {| id := 1700000000000; text := lit "buy milk";
                      completed := false; createdAt := 1700000000000 |}
                  (filteredTasks (setFilter Active
                                    (setTasks three_tasks initial))))
    by (left; reflexivity).
  split; [exact Hnd|]. split; [exact Hf|]. split; [exact Hin|].
  exact (toggle_takes_the_row_out
           (setFilter Active (setTasks three_tasks initial))
           {| id := 1700000000000; text := lit "buy milk";
              completed := false; createdAt := 1700000000000 |}
           Hnd Hf Hin).
Defined.


